(** * Kerplunk: the simulation core of [kerplunk.py]

    A shallow embedding of [Game.spawn_car], [Game.update],
    [Game.player_row], [Game.handle_input], [clamp], of the state built by
    [Game.__init__] and of the frame loop of [Game.loop], followed by the
    properties of the tick.

    Modelling choices.
    - The code is embedded twice.  In the first embedding a Python [float]
      is an exact rational ([Q], equality [Qeq]) and no operation
      overflows: it carries the structure of the tick, that is which cars
      are spawned, removed and counted, the order of the two detections,
      the counters and the ramp as a power of 1.22.  In the second,
      [Module B64], a [float] is a binary64 number with the operations of
      the machine, [int] and [round] raise on an infinity and on a nan,
      and every value is the one the code stores: it carries the stored
      positions and speeds and the exceptions of the tick.
    - A Python [int] is a [Z].
    - A [Car] is a mutable object compared by identity (the class defines no
      [__eq__]); the record carries its identity in the field [oid], and the
      game counts the objects it has allocated in [next_id].
    - The [random] module is an oracle: every call site receives the value
      it draws as an input ([Draw]).
    - An exception ends the call: [update] returns [inl e] when the Python
      raises [e].  Rendering, key polling and the clock are outside the
      model; the key read and the elapsed time are inputs of a frame.
    - Of [Game.draw] the branch without curses is modelled, as the buffer
      of lines it prints; the width of the terminal, which the simulation
      never reads, is an argument. *)

From Stdlib Require Import ZArith QArith Qround Qpower List String Bool.
From Stdlib Require Import Ascii DecimalString Floats.
From Stdlib Require Import Lia Lqa.
Import ListNotations.

Open Scope Z_scope.
Open Scope Q_scope.

(** ** Exceptions *)

Inductive exn : Set :=
  ZeroDivisionError | IndexError | OverflowError | ValueError.

Definition result (A : Type) : Type := (exn + A)%type.

Definition ret {A : Type} (a : A) : result A := inr a.
Definition raise {A : Type} (e : exn) : result A := inl e.

Definition bind {A B : Type} (m : result A) (k : A -> result B) : result B :=
  match m with
  | inl e => inl e
  | inr a => k a
  end.

Notation "x <- m ;; k" := (bind m (fun x => k))
  (at level 61, m at next level, right associativity).

(** ** The Python built-ins the simulation uses *)

Module Py.

(** [a < b] on floats. *)
Definition ltb (a b : Q) : bool := negb (Qle_bool b a).

(** [max(a, b)]: the first argument unless the second is greater. *)
Definition max (a b : Q) : Q := if ltb a b then b else a.

(** [a / b] on floats. *)
Definition div (a b : Q) : result Q :=
  if Qeq_bool b 0 then raise ZeroDivisionError else ret (a / b).

(** [int(x)]: truncation toward zero. *)
Definition int (x : Q) : Z := Z.quot (Qnum x) (Zpos (Qden x)).

(** [round(x)]: the nearest integer, a tie going to the even one. *)
Definition round (x : Q) : Z :=
  let f := Qfloor x in
  match Qcompare (x - inject_Z f) (1 # 2) with
  | Lt => f
  | Gt => (f + 1)%Z
  | Eq => if Z.even f then f else (f + 1)%Z
  end.

(** [l[i]]: a negative index counts from the end. *)
Definition getitem {A : Type} (l : list A) (i : Z) : result A :=
  let n := Z.of_nat (List.length l) in
  let j := if (i <? 0)%Z then (i + n)%Z else i in
  if ((j <? 0) || (n <=? j))%Z then raise IndexError
  else match nth_error l (Z.to_nat j) with
       | Some a => ret a
       | None => raise IndexError
       end.

(** [random.uniform(a, b)] is [a + (b - a) * random()]; [r] is the value
    of [random()], in [0, 1). *)
Definition uniform (a b r : Q) : Q := a + (b - a) * r.

End Py.

(** ** Constants *)

Definition LANE_COUNT : Z := 5.
Definition CAR_CHARS : list string := ["<#>"; "[=]"; "<o>"]%string.
Definition SPAWN_INTERVAL : Q := 0.8.
Definition INITIAL_DISTANCE_MAX : Q := 8.
Definition BASE_LANE_SPEEDS : list Q := [0.9; 1.2; 1.6; 1.0; 1.4].

(** ** Data *)

Record Car : Type := mkCar {
  oid : nat;        (* the identity of the object *)
  lane : Z;
  y : Q;
  art : string
}.

Record Game : Type := mkGame {
  height : Z;
  spawn_timer : Q;
  cars : list Car;
  passed : Z;
  global_speed : Q;
  player_lane : Z;
  running : bool;
  score : Z;
  next_id : nat     (* the number of Car objects created so far *)
}.

Definition set_y (c : Car) (v : Q) : Car :=
  mkCar (oid c) (lane c) v (art c).

Definition set_spawn_timer (g : Game) (t : Q) : Game :=
  mkGame (height g) t (cars g) (passed g) (global_speed g) (player_lane g)
         (running g) (score g) (next_id g).

Definition set_player_lane (g : Game) (l : Z) : Game :=
  mkGame (height g) (spawn_timer g) (cars g) (passed g) (global_speed g) l
         (running g) (score g) (next_id g).

Definition set_running (g : Game) (b : bool) : Game :=
  mkGame (height g) (spawn_timer g) (cars g) (passed g) (global_speed g)
         (player_lane g) b (score g) (next_id g).

Definition set_height (g : Game) (h : Z) : Game :=
  mkGame h (spawn_timer g) (cars g) (passed g) (global_speed g)
         (player_lane g) (running g) (score g) (next_id g).

(** The values one tick may draw from [random]: the [random()] behind the
    new spawn timer, the lane of [randrange], the index behind [choice] and
    the [random()] behind the start distance. *)
Record Draw : Type := mkDraw {
  rnd_timer : Q;
  rnd_lane : Z;
  rnd_art : nat;
  rnd_dist : Q
}.

(** What the [random] module guarantees of these values. *)
Definition valid_draw (d : Draw) : Prop :=
  0 <= rnd_timer d /\ rnd_timer d < 1 /\
  (0 <= rnd_lane d < LANE_COUNT)%Z /\
  (rnd_art d < List.length CAR_CHARS)%nat /\
  0 <= rnd_dist d /\ rnd_dist d < 1.

(** ** Operations *)

Definition clamp (v a b : Z) : Z := Z.max a (Z.min b v).

(** [Game.__init__]. *)
Definition init : Game :=
  mkGame 24 0.0 [] 0 1.0 (LANE_COUNT / 2)%Z true 0 0.

Definition player_row (g : Game) : Z := (height g - 3)%Z.

Definition spawn_car (g : Game) (d : Draw) : Game :=
  let lane := rnd_lane d in
  let art := nth (rnd_art d) CAR_CHARS ""%string in
  let y := - Py.uniform 0.0 INITIAL_DISTANCE_MAX (rnd_dist d) in
  mkGame (height g) (spawn_timer g)
         (cars g ++ [mkCar (next_id g) lane y art])
         (passed g) (global_speed g) (player_lane g) (running g) (score g)
         (S (next_id g)).

(** The first block of [update] ("spawn logic"). *)
Definition spawn_logic (g : Game) (dt : Q) (d : Draw) : result Game :=
  let g1 := set_spawn_timer g (spawn_timer g - dt) in
  q <- Py.div SPAWN_INTERVAL (global_speed g1 * 0.9) ;;
  let spawn_interval := Py.max 0.15 q in
  if Qle_bool (spawn_timer g1) 0.0
  then ret (spawn_car
              (set_spawn_timer g1
                 (Py.uniform (spawn_interval * 0.6) (spawn_interval * 1.4)
                             (rnd_timer d)))
              d)
  else ret g1.

(** What the loop over the cars has accumulated. *)
Record Sweep : Type := mkSweep {
  sw_cars : list Car;       (* the cars visited, moved *)
  sw_remove : list Car;     (* [to_remove] *)
  sw_passed : Z;
  sw_score : Z;
  sw_speed : Q
}.

(** The test of the car that has passed the player, on a moved car. *)
Definition gone (row : Z) (c : Car) : bool := (row + 1 <=? Py.int (y c))%Z.

(** [lane_speeds] of [update], for the speed [gs] in force. *)
Definition lane_speeds (gs : Q) : list Q :=
  map (fun s => s * gs) BASE_LANE_SPEEDS.

(** The motion of one car: [speed = lane_speeds[car.lane]] and
    [car.y += speed * dt]. *)
Definition advance (speeds : list Q) (dt : Q) (car : Car) : result Car :=
  speed <- Py.getitem speeds (lane car) ;;
  ret (set_y car (y car + speed * dt)).

(** The loop "Move cars" of [update], from counters [p], [s] and speed
    [gs]; [row] is [self.player_row()]. *)
Fixpoint move_cars (lane_speeds : list Q) (dt : Q) (row : Z)
    (p s : Z) (gs : Q) (cs : list Car) : result Sweep :=
  match cs with
  | [] => ret (mkSweep [] [] p s gs)
  | car :: rest =>
      car' <- advance lane_speeds dt car ;;
      if gone row car' then
        let p' := (p + 1)%Z in
        let s' := (s + 1)%Z in
        let gs' := if (p' mod 10 =? 0)%Z then gs * 1.22 else gs in
        w <- move_cars lane_speeds dt row p' s' gs' rest ;;
        ret (mkSweep (car' :: sw_cars w) (car' :: sw_remove w)
                     (sw_passed w) (sw_score w) (sw_speed w))
      else
        w <- move_cars lane_speeds dt row p s gs rest ;;
        ret (mkSweep (car' :: sw_cars w) (sw_remove w)
                     (sw_passed w) (sw_score w) (sw_speed w))
  end.

(** [c in l] and [l.remove(c)] on cars: equality is identity. *)
Definition same (c c' : Car) : bool := Nat.eqb (oid c) (oid c').

Definition contains (c : Car) (l : list Car) : bool := existsb (same c) l.

Fixpoint remove_first (c : Car) (l : list Car) : list Car :=
  match l with
  | [] => []
  | c' :: t => if same c c' then t else c' :: remove_first c t
  end.

(** The loop over [to_remove]. *)
Fixpoint remove_passed (to_remove l : list Car) : list Car :=
  match to_remove with
  | [] => l
  | c :: t => remove_passed t (if contains c l then remove_first c l else l)
  end.

(** The test of the collision check. *)
Definition hits (row pl : Z) (c : Car) : bool :=
  ((Py.round (y c) =? row) && (lane c =? pl))%Z.

(** The loop "Collision check"; [r] is [self.running]. *)
Fixpoint collision_check (row pl : Z) (r : bool) (l : list Car) : bool :=
  match l with
  | [] => r
  | c :: t => collision_check row pl (if hits row pl c then false else r) t
  end.

(** The rest of [update]: motion, pass detection, removal, collision. *)
Definition move_and_judge (g : Game) (dt : Q) : result Game :=
  let lane_speeds := lane_speeds (global_speed g) in
  w <- move_cars lane_speeds dt (player_row g)
                 (passed g) (score g) (global_speed g) (cars g) ;;
  let cars' := remove_passed (sw_remove w) (sw_cars w) in
  ret (mkGame (height g) (spawn_timer g) cars' (sw_passed w) (sw_speed w)
              (player_lane g)
              (collision_check (player_row g) (player_lane g) (running g)
                               cars')
              (sw_score w) (next_id g)).

Definition update (g : Game) (dt : Q) (d : Draw) : result Game :=
  g1 <- spawn_logic g dt d ;;
  move_and_judge g1 dt.

(** The key [handle_input] has read, if any. *)
Inductive Key : Set := NoKey | KeyQuit | KeyLeft | KeyRight | KeyOther.

Definition handle_input (g : Game) (k : Key) : Game :=
  match k with
  | KeyQuit => set_running g false
  | KeyLeft =>
      set_player_lane g (clamp (player_lane g - 1) 0 (LANE_COUNT - 1))%Z
  | KeyRight =>
      set_player_lane g (clamp (player_lane g + 1) 0 (LANE_COUNT - 1))%Z
  | NoKey | KeyOther => g
  end.

(** The start of [loop]: the terminal height [h] read by
    [setup_dimensions], then six seeded cars; [rnd i] holds the draws of
    the [i]-th call of [spawn_car]. *)
Definition initialize (h : Z) (rnd : nat -> Draw) : Game :=
  fold_left spawn_car (map rnd (seq 0 6)) (set_height init h).

(** One iteration of the [while] of [loop], without the drawing: the key
    read, the elapsed time and the draws of the frame. *)
Record Frame : Type := mkFrame {
  fr_key : Key;
  fr_dt : Q;
  fr_draw : Draw
}.

Definition frame (g : Game) (f : Frame) : result Game :=
  update (handle_input g (fr_key f)) (fr_dt f) (fr_draw f).

(** [while self.running: ...] over the frames supplied. *)
Fixpoint run (g : Game) (fs : list Frame) : result Game :=
  match fs with
  | [] => ret g
  | f :: rest =>
      if running g then g' <- frame g f ;; run g' rest else ret g
  end.

(** [Game.loop] up to the exit message. *)
Definition loop (h : Z) (rnd : nat -> Draw) (fs : list Frame) : result Game :=
  run (initialize h rnd) fs.

(** ** The simulation on binary64 numbers *)

#[local] Set Warnings "-inexact-float".

Module B64.

(** [max(a, b)], [a / b], [random.uniform(a, b)] on floats. *)
Definition max (a b : float) : float := if (a <? b)%float then b else a.

Definition div (a b : float) : result float :=
  if (b =? 0)%float then raise ZeroDivisionError else ret (a / b)%float.

Definition uniform (a b r : float) : float := (a + (b - a) * r)%float.

(** The magnitude of [m * 2^e] cut to an integer, toward zero. *)
Definition trunc_mag (m : positive) (e : Z) : Z :=
  if (0 <=? e)%Z then (Zpos m * 2 ^ e)%Z else (Zpos m / 2 ^ (- e))%Z.

(** The magnitude of [m * 2^e] rounded to the nearest integer, a tie going
    to the even one. *)
Definition round_mag (m : positive) (e : Z) : Z :=
  if (0 <=? e)%Z then (Zpos m * 2 ^ e)%Z
  else
    let k := (2 ^ (- e))%Z in
    let q := (Zpos m / k)%Z in
    let r := (Zpos m mod k)%Z in
    match (2 * r ?= k)%Z with
    | Lt => q
    | Gt => (q + 1)%Z
    | Eq => if Z.even q then q else (q + 1)%Z
    end.

(** [int(x)]: [OverflowError] on an infinity, [ValueError] on a nan. *)
Definition int (x : float) : result Z :=
  match Prim2SF x with
  | S754_zero _ => ret 0%Z
  | S754_infinity _ => raise OverflowError
  | S754_nan => raise ValueError
  | S754_finite s m e =>
      ret (if s then (- trunc_mag m e)%Z else trunc_mag m e)
  end.

(** [round(x)], with the same exceptions. *)
Definition round (x : float) : result Z :=
  match Prim2SF x with
  | S754_zero _ => ret 0%Z
  | S754_infinity _ => raise OverflowError
  | S754_nan => raise ValueError
  | S754_finite s m e =>
      ret (if s then (- round_mag m e)%Z else round_mag m e)
  end.

Definition SPAWN_INTERVAL : float := 0.8.
Definition INITIAL_DISTANCE_MAX : float := 8.
Definition BASE_LANE_SPEEDS : list float := [0.9; 1.2; 1.6; 1.0; 1.4]%float.

Record Car : Type := mkCar {
  oid : nat;
  lane : Z;
  y : float;
  art : string
}.

Record Game : Type := mkGame {
  height : Z;
  spawn_timer : float;
  cars : list Car;
  passed : Z;
  global_speed : float;
  player_lane : Z;
  running : bool;
  score : Z;
  next_id : nat
}.

Definition set_y (c : Car) (v : float) : Car :=
  mkCar (oid c) (lane c) v (art c).

Definition set_spawn_timer (g : Game) (t : float) : Game :=
  mkGame (height g) t (cars g) (passed g) (global_speed g) (player_lane g)
         (running g) (score g) (next_id g).

Definition set_player_lane (g : Game) (l : Z) : Game :=
  mkGame (height g) (spawn_timer g) (cars g) (passed g) (global_speed g) l
         (running g) (score g) (next_id g).

Definition set_running (g : Game) (b : bool) : Game :=
  mkGame (height g) (spawn_timer g) (cars g) (passed g) (global_speed g)
         (player_lane g) b (score g) (next_id g).

Definition set_height (g : Game) (h : Z) : Game :=
  mkGame h (spawn_timer g) (cars g) (passed g) (global_speed g)
         (player_lane g) (running g) (score g) (next_id g).

Record Draw : Type := mkDraw {
  rnd_timer : float;
  rnd_lane : Z;
  rnd_art : nat;
  rnd_dist : float
}.

(** [Game.__init__]. *)
Definition init : Game :=
  mkGame 24 0.0 [] 0 1.0 (LANE_COUNT / 2)%Z true 0 0.

Definition player_row (g : Game) : Z := (height g - 3)%Z.

Definition spawn_car (g : Game) (d : Draw) : Game :=
  let lane := rnd_lane d in
  let art := nth (rnd_art d) CAR_CHARS ""%string in
  let y := (- uniform 0.0 INITIAL_DISTANCE_MAX (rnd_dist d))%float in
  mkGame (height g) (spawn_timer g)
         (cars g ++ [mkCar (next_id g) lane y art])
         (passed g) (global_speed g) (player_lane g) (running g) (score g)
         (S (next_id g)).

Definition spawn_logic (g : Game) (dt : float) (d : Draw) : result Game :=
  let g1 := set_spawn_timer g (spawn_timer g - dt)%float in
  q <- div SPAWN_INTERVAL (global_speed g1 * 0.9)%float ;;
  let spawn_interval := max 0.15 q in
  if (spawn_timer g1 <=? 0.0)%float
  then ret (spawn_car
              (set_spawn_timer g1
                 (uniform (spawn_interval * 0.6)%float
                          (spawn_interval * 1.4)%float (rnd_timer d)))
              d)
  else ret g1.

Record Sweep : Type := mkSweep {
  sw_cars : list Car;
  sw_remove : list Car;
  sw_passed : Z;
  sw_score : Z;
  sw_speed : float
}.

Definition lane_speeds (gs : float) : list float :=
  map (fun s => (s * gs)%float) BASE_LANE_SPEEDS.

(** [speed = lane_speeds[car.lane]; car.y += speed * dt]. *)
Definition advance (speeds : list float) (dt : float) (car : Car)
    : result Car :=
  speed <- Py.getitem speeds (lane car) ;;
  ret (set_y car (y car + speed * dt)%float).

(** The motion of one car and the [int(car.y)] of the test that follows
    it. *)
Definition moved_row (speeds : list float) (dt : float) (car : Car)
    : result (Car * Z) :=
  car' <- advance speeds dt car ;;
  i <- int (y car') ;;
  ret (car', i).

(** The test of the car that has passed, on a moved car. *)
Definition gone (row : Z) (c : Car) : bool :=
  match int (y c) with
  | inr i => (row + 1 <=? i)%Z
  | inl _ => false
  end.

Fixpoint move_cars (lane_speeds : list float) (dt : float) (row : Z)
    (p s : Z) (gs : float) (cs : list Car) : result Sweep :=
  match cs with
  | [] => ret (mkSweep [] [] p s gs)
  | car :: rest =>
      ci <- moved_row lane_speeds dt car ;;
      let car' := fst ci in
      if (row + 1 <=? snd ci)%Z then
        let p' := (p + 1)%Z in
        let s' := (s + 1)%Z in
        let gs' := if (p' mod 10 =? 0)%Z then (gs * 1.22)%float else gs in
        w <- move_cars lane_speeds dt row p' s' gs' rest ;;
        ret (mkSweep (car' :: sw_cars w) (car' :: sw_remove w)
                     (sw_passed w) (sw_score w) (sw_speed w))
      else
        w <- move_cars lane_speeds dt row p s gs rest ;;
        ret (mkSweep (car' :: sw_cars w) (sw_remove w)
                     (sw_passed w) (sw_score w) (sw_speed w))
  end.

Definition same (c c' : Car) : bool := Nat.eqb (oid c) (oid c').

Definition contains (c : Car) (l : list Car) : bool := existsb (same c) l.

Fixpoint remove_first (c : Car) (l : list Car) : list Car :=
  match l with
  | [] => []
  | c' :: t => if same c c' then t else c' :: remove_first c t
  end.

Fixpoint remove_passed (to_remove l : list Car) : list Car :=
  match to_remove with
  | [] => l
  | c :: t => remove_passed t (if contains c l then remove_first c l else l)
  end.

(** The loop "Collision check": [int(round(car.y))] is evaluated for every
    car. *)
Fixpoint collision_check (row pl : Z) (r : bool) (l : list Car)
    : result bool :=
  match l with
  | [] => ret r
  | c :: t =>
      i <- round (y c) ;;
      collision_check row pl
        (if ((i =? row) && (lane c =? pl))%Z then false else r) t
  end.

Definition move_and_judge (g : Game) (dt : float) : result Game :=
  let lane_speeds := lane_speeds (global_speed g) in
  w <- move_cars lane_speeds dt (player_row g)
                 (passed g) (score g) (global_speed g) (cars g) ;;
  let cars' := remove_passed (sw_remove w) (sw_cars w) in
  r <- collision_check (player_row g) (player_lane g) (running g) cars' ;;
  ret (mkGame (height g) (spawn_timer g) cars' (sw_passed w) (sw_speed w)
              (player_lane g) r (sw_score w) (next_id g)).

Definition update (g : Game) (dt : float) (d : Draw) : result Game :=
  g1 <- spawn_logic g dt d ;;
  move_and_judge g1 dt.

Definition handle_input (g : Game) (k : Key) : Game :=
  match k with
  | KeyQuit => set_running g false
  | KeyLeft =>
      set_player_lane g (clamp (player_lane g - 1) 0 (LANE_COUNT - 1))%Z
  | KeyRight =>
      set_player_lane g (clamp (player_lane g + 1) 0 (LANE_COUNT - 1))%Z
  | NoKey | KeyOther => g
  end.

Definition initialize (h : Z) (rnd : nat -> Draw) : Game :=
  fold_left spawn_car (map rnd (seq 0 6)) (set_height init h).

Record Frame : Type := mkFrame {
  fr_key : Key;
  fr_dt : float;
  fr_draw : Draw
}.

Definition frame (g : Game) (f : Frame) : result Game :=
  update (handle_input g (fr_key f)) (fr_dt f) (fr_draw f).

Fixpoint run (g : Game) (fs : list Frame) : result Game :=
  match fs with
  | [] => ret g
  | f :: rest =>
      if running g then g' <- frame g f ;; run g' rest else ret g
  end.

(** What the [random] module guarantees of the lane and of the art. *)
Definition valid_draw (d : Draw) : Prop :=
  (0 <= rnd_lane d < LANE_COUNT)%Z /\
  (rnd_art d < List.length CAR_CHARS)%nat.

Inductive reachable : Game -> Prop :=
| reach_init (h : Z) (rnd : nat -> Draw) :
    (forall i, valid_draw (rnd i)) -> reachable (initialize h rnd)
| reach_frame (g g' : Game) (f : Frame) :
    reachable g -> valid_draw (fr_draw f) -> frame g f = inr g' ->
    reachable g'.

Definition advanced (speeds : list float) (dt : float)
    (cs moved : list Car) : Prop :=
  Forall2 (fun c c' => advance speeds dt c = inr c') cs moved.

Definition distinct (g : Game) : Prop :=
  NoDup (map oid (cars g)) /\
  Forall (fun c => (oid c < next_id g)%nat) (cars g).

(** The speed after [k] ramps: [1.0] multiplied [k] times by [1.22], each
    product rounded. *)
Fixpoint ramped (k : nat) : float :=
  match k with
  | O => 1.0%float
  | S k' => (ramped k' * 1.22)%float
  end.

(** What every state of a run satisfies. *)
Record inv (g : Game) : Prop := mkInv {
  inv_distinct : distinct g;
  inv_lanes : Forall (fun c => (0 <= lane c < LANE_COUNT)%Z) (cars g);
  inv_passed : (0 <= passed g)%Z;
  inv_speed : global_speed g = ramped (Z.to_nat (passed g / 10))
}.

Definition draw0 : Draw := mkDraw 0.5 4 1 0.25.

Definition one_car (h ln : Z) (pos : float) (pl : Z) : Game :=
  mkGame h 5.0 [mkCar 0 ln pos "<#>"] 0 1.0 pl true 0 1.

(** [P] on [x], [x * 1.22], ..., the [n] speeds from [x] on. *)
Fixpoint all_ramps (P : float -> bool) (n : nat) (x : float) : bool :=
  match n with
  | O => true
  | S n' => P x && all_ramps P n' (x * 1.22)%float
  end.

(** Sixty frames of 0.2 s with no key pressed. *)
Definition sample_frames : list Frame :=
  repeat (mkFrame NoKey 0.2 draw0) 60.

(** Two cars, the second in a lane that does not exist, and the same two
    in the other order. *)
Definition two_cars : Game :=
  mkGame 13 5.0 [mkCar 0 2 0.0 "<#>"; mkCar 1 7 0.0 "<#>"] 0 1.0 3 true 0 2.

Definition two_cars_swapped : Game :=
  mkGame 13 5.0 [mkCar 1 7 0.0 "<#>"; mkCar 0 2 0.0 "<#>"] 0 1.0 3 true 0 2.

(** A running game in which nine cars have passed, a tenth is about to, and
    a spawn is due. *)
Definition nine_passed : Game :=
  mkGame 13 0.1 [mkCar 0 2 (-1.0) "<#>"; mkCar 1 0 10.9 "<#>"]
         9 1.0 3 true 9 2.

End B64.

(** ** Predicates on states *)

(** [moved] is [cs] after the motion of every car. *)
Definition advanced (speeds : list Q) (dt : Q) (cs moved : list Car) : Prop :=
  Forall2 (fun c c' => advance speeds dt c = inr c') cs moved.

(** The entries of [self.cars] are distinct objects, all of them created
    by [spawn_car]. *)
Definition distinct (g : Game) : Prop :=
  NoDup (map oid (cars g)) /\
  Forall (fun c => (oid c < next_id g)%nat) (cars g).

Definition lanes_ok (l : list Car) : Prop :=
  Forall (fun c => (0 <= lane c < LANE_COUNT)%Z) l.

(** The invariant of the simulation state. *)
Record inv (g : Game) : Prop := mkInv {
  inv_distinct : distinct g;
  inv_lanes : lanes_ok (cars g);
  inv_player : (0 <= player_lane g < LANE_COUNT)%Z;
  inv_passed : (0 <= passed g)%Z;
  inv_score : score g = passed g;
  inv_speed : 1 <= global_speed g
}.

(** The states of a run: the seeded state, then any number of frames,
    whatever the key, the elapsed time and the (valid) draws. *)
Inductive reachable : Game -> Prop :=
| reach_init (h : Z) (rnd : nat -> Draw) :
    (forall i, valid_draw (rnd i)) -> reachable (initialize h rnd)
| reach_frame (g g' : Game) (f : Frame) :
    reachable g -> valid_draw (fr_draw f) -> frame g f = inr g' ->
    reachable g'.

(** The multiples of ten in [(p, p']]. *)
Definition tens_crossed (p p' : Z) : Z := (p' / 10 - p / 10)%Z.

(** Two states that agree on everything but [running]. *)
Definition same_but_running (g g' : Game) : Prop :=
  set_running g true = set_running g' true.

(** ** Sample inputs *)

Definition draw0 : Draw := mkDraw 0.5 2 1 0.25.

(** The draws of a tick in which every call of [random()] returns [0.0]
    and [randrange] and [choice] pick their first value. *)
Definition draw_zero : Draw := mkDraw 0.0 0 0 0.0.

(** A running game on a field of [h] rows: one car in lane [ln] at [pos],
    the player in lane [pl], nothing passed yet and five seconds to the
    next spawn. *)
Definition one_car (h ln : Z) (pos : Q) (pl : Z) : Game :=
  mkGame h 5.0 [mkCar 0 ln pos "<#>"] 0 1.0 pl true 0 1.

(** The state [handle_input] leaves when the player quits while a car is
    about to pass. *)
Definition quit_game : Game := handle_input (one_car 13 2 10.9 2) KeyQuit.

(** Draws that put every car in the rightmost lane, two rows above the
    top, and sixty frames of 0.2 s with no key pressed: on a field of 12
    rows ten cars pass and the speed ramps once. *)
Definition draw_right : Draw := mkDraw 0.5 4 1 0.25.

Definition sample_frames : list Frame :=
  repeat (mkFrame NoKey 0.2 draw_right) 60.

(** A running game in which nine cars have passed and a tenth is about
    to. *)
Definition nine_passed : Game :=
  mkGame 13 5.0 [mkCar 0 2 10.9 "<#>"] 9 1.0 3 true 9 1.

(** A game whose spawn timer runs out in the next tick. *)
Definition spawn_due : Game :=
  mkGame 13 0.05 [mkCar 0 2 1.0 "<#>"] 0 1.0 3 true 0 1.

(** ** Rendering *)

Definition PLAYER_CHAR : string := "<P>".
Definition MIN_WIDTH : Z := 40.
Definition MIN_HEIGHT : Z := 12.

(** The operations on [str] and [list] that [draw] uses. *)
Module PyStr.

Definition len (s : string) : Z := Z.of_nat (String.length s).

(** [str(n)] for an [int]. *)
Definition of_int (n : Z) : string := NilZero.string_of_int (Z.to_int n).

Fixpoint replicate (n : nat) (c : ascii) : string :=
  match n with
  | O => EmptyString
  | S n' => String c (replicate n' c)
  end.

(** [" " * n]: empty when [n] is not positive. *)
Definition spaces (n : Z) : string := replicate (Z.to_nat n) " "%char.

Fixpoint take (n : nat) (s : string) : string :=
  match n, s with
  | S n', String c t => String c (take n' t)
  | _, _ => EmptyString
  end.

Fixpoint drop (n : nat) (s : string) : string :=
  match n, s with
  | S n', String _ t => drop n' t
  | _, _ => s
  end.

(** The position a slice bound [k] denotes in [s]: a negative bound
    counts from the end, and every bound is cut to [0, len(s)]. *)
Definition bound (s : string) (k : Z) : nat :=
  if (k <? 0)%Z then Z.to_nat (Z.max 0 (len s + k))
  else Z.to_nat (Z.min k (len s)).

(** [s[:k]] and [s[k:]]. *)
Definition upto (s : string) (k : Z) : string := take (bound s k) s.
Definition from (s : string) (k : Z) : string := drop (bound s k) s.

(** [s.ljust(n)]. *)
Definition ljust (s : string) (n : Z) : string :=
  (s ++ spaces (n - len s))%string.

(** [l[i] = v]. *)
Definition setitem {A : Type} (l : list A) (i : Z) (v : A) : result (list A) :=
  let n := Z.of_nat (List.length l) in
  let j := if (i <? 0)%Z then (i + n)%Z else i in
  if ((j <? 0) || (n <=? j))%Z then raise IndexError
  else ret (firstn (Z.to_nat j) l ++ v :: skipn (S (Z.to_nat j)) l).

End PyStr.

(** [range(n)]. *)
Definition range (n : Z) : list Z := map Z.of_nat (seq 0 (Z.to_nat n)).

(** [Game.lane_x_positions], for the width [self.width]. *)
Definition lane_x_positions (width : Z) : list Z :=
  let usable := Z.max (width - 10) 20 in
  let gap := Z.max 6 (usable / (LANE_COUNT * 2)) in
  let total_span := (gap * (LANE_COUNT - 1))%Z in
  let start := ((width - total_span) / 2)%Z in
  map (fun i => start + gap * i)%Z (range LANE_COUNT).

(** [row[:startx] + s + row[startx + len(s):]] with the [startx] that
    [draw] computes for the art [s] and the lane centre [x]. *)
Definition paint (width x : Z) (s row : string) : string :=
  let startx := clamp (x - PyStr.len s / 2) 0 (width - PyStr.len s) in
  (PyStr.upto row startx ++ s ++ PyStr.from row (startx + PyStr.len s))%string.

(** The loop of [draw] over the cars, on the buffer of lines. *)
Fixpoint draw_cars (xs : list Z) (width height : Z) (buffer : list string)
    (cs : list Car) : result (list string) :=
  match cs with
  | [] => ret buffer
  | car :: rest =>
      let r := Py.round (y car) in
      if ((0 <=? r) && (r <? height - 1))%Z then
        x <- Py.getitem xs (lane car) ;;
        row <- Py.getitem buffer r ;;
        buffer' <- PyStr.setitem buffer r (paint width x (art car) row) ;;
        draw_cars xs width height buffer' rest
      else draw_cars xs width height buffer rest
  end.

(** What [draw] prints: the message of the terminal too small, or the
    lines of the frame. *)
Inductive Shown : Type :=
| TooSmall (msg : string)
| Painted (buffer : list string).

(** The line of the HUD; [speed] is the text of
    [{self.global_speed:.2f}], the formatting of a float being outside the
    model. *)
Definition hud_text (g : Game) (speed : string) : string :=
  (" Passed: " ++ PyStr.of_int (passed g) ++ "  Speed: " ++ speed
   ++ "  (q to quit)")%string.

(** [Game.draw] with [use_curses] false. *)
Definition draw (g : Game) (width : Z) (speed : string) : result Shown :=
  if ((width <? MIN_WIDTH) || (height g <? MIN_HEIGHT))%Z then
    ret (TooSmall ("Terminal too small: need " ++ PyStr.of_int MIN_WIDTH
                   ++ "x" ++ PyStr.of_int MIN_HEIGHT ++ ", got "
                   ++ PyStr.of_int width ++ "x"
                   ++ PyStr.of_int (height g))%string)
  else
    let xs := lane_x_positions width in
    let buffer := repeat (PyStr.spaces width) (Z.to_nat (height g)) in
    buffer <- draw_cars xs width (height g) buffer (cars g) ;;
    let py := player_row g in
    px <- Py.getitem xs (player_lane g) ;;
    row <- Py.getitem buffer py ;;
    buffer <- PyStr.setitem buffer py (paint width px PLAYER_CHAR row) ;;
    let hud := hud_text g speed in
    buffer <- PyStr.setitem buffer (height g - 1)
                (PyStr.ljust (PyStr.upto hud (width - 1)) (width - 1)) ;;
    ret (Painted buffer).

(** A game in mid-run on a terminal of 24 rows, to be drawn. *)
Definition mid_game : Game :=
  mkGame 24 0.5
         [mkCar 3 1 4.2 "<#>"; mkCar 5 4 17.6 "[=]"; mkCar 6 0 (-2.5) "<o>"]
         3 1.0 2 true 3 7.

(** * Properties *)

(** ** The built-ins *)

Lemma ltb_lt (a b : Q) : Py.ltb a b = true <-> a < b.
Proof.
  unfold Py.ltb. rewrite negb_true_iff.
  split; intro H.
  - apply Qnot_le_lt. intro Hle. apply Qle_bool_iff in Hle. congruence.
  - apply not_true_is_false. intro Hle. apply Qle_bool_iff in Hle.
    apply (Qlt_not_le _ _ H Hle).
Qed.

Lemma max_lower (a b : Q) : a <= Py.max a b.
Proof.
  unfold Py.max. destruct (Py.ltb a b) eqn:E.
  - apply ltb_lt in E. lra.
  - lra.
Qed.

Lemma max_cases (a b : Q) :
  (b <= a /\ Py.max a b = a) \/ (a < b /\ Py.max a b = b).
Proof.
  unfold Py.max. destruct (Py.ltb a b) eqn:E.
  - right. apply ltb_lt in E. auto.
  - left. split; [|reflexivity].
    apply Qnot_lt_le. intro H. apply ltb_lt in H. congruence.
Qed.

Lemma div_inr (a b q : Q) :
  Py.div a b = inr q -> ~ b == 0 /\ q = a / b.
Proof.
  unfold Py.div. destruct (Qeq_bool b 0) eqn:E; [discriminate|].
  intro H. injection H as <-. split; [|reflexivity].
  intro Hb. apply Qeq_bool_iff in Hb. congruence.
Qed.

Lemma uniform_range (a b r : Q) :
  a <= b -> 0 <= r -> r < 1 ->
  a <= Py.uniform a b r /\ Py.uniform a b r <= b.
Proof.
  unfold Py.uniform. intros Hab H0 H1. split; nra.
Qed.

(** [int] truncates, so it is the floor from zero upward and never exceeds
    zero below it. *)
Lemma int_floor_nonneg (x : Q) : 0 <= x -> Py.int x = Qfloor x.
Proof.
  destruct x as [n d]. unfold Py.int, Qfloor, Qle. simpl.
  intro H. apply Z.quot_div_nonneg; lia.
Qed.

Lemma int_neg (x : Q) : x < 0 -> (Py.int x <= 0)%Z /\ (Qfloor x < 0)%Z.
Proof.
  destruct x as [n d]. unfold Py.int, Qfloor, Qlt. simpl.
  intro H. split.
  - apply Z.quot_le_upper_bound; lia.
  - apply Z.div_lt_upper_bound; lia.
Qed.

Lemma int_vs_floor (k : Z) (x : Q) :
  (1 <= k)%Z -> ((k <= Py.int x)%Z <-> (k <= Qfloor x)%Z).
Proof.
  intro Hk. destruct (Qlt_le_dec x 0) as [Hx|Hx].
  - destruct (int_neg x Hx). lia.
  - rewrite (int_floor_nonneg x Hx). tauto.
Qed.

(** [round] returns an integer at distance at most one half. *)
Lemma round_nearest (x : Q) :
  inject_Z (Py.round x) - (1 # 2) <= x /\ x <= inject_Z (Py.round x) + (1 # 2).
Proof.
  unfold Py.round.
  pose proof (Qfloor_le x) as Hlo. pose proof (Qlt_floor x) as Hhi.
  rewrite inject_Z_plus in Hhi. change (inject_Z 1) with 1 in Hhi.
  destruct (Qcompare_spec (x - inject_Z (Qfloor x)) (1 # 2)) as [E|E|E].
  - destruct (Z.even (Qfloor x)).
    + split; lra.
    + rewrite inject_Z_plus. change (inject_Z 1) with 1. split; lra.
  - split; lra.
  - rewrite inject_Z_plus. change (inject_Z 1) with 1. split; lra.
Qed.

Lemma getitem_lane_speeds (gs : Q) (i : Z) :
  (0 <= i < LANE_COUNT)%Z ->
  exists b, Py.getitem BASE_LANE_SPEEDS i = inr b /\
            Py.getitem (lane_speeds gs) i = inr (b * gs).
Proof.
  unfold LANE_COUNT. intro H.
  assert (i = 0 \/ i = 1 \/ i = 2 \/ i = 3 \/ i = 4)%Z as Hi by lia.
  destruct Hi as [->|[->|[->|[->| ->]]]]; eexists; split; reflexivity.
Qed.

Lemma getitem_inl {A : Type} (l : list A) (i : Z) (e : exn) :
  Py.getitem l i = inl e ->
  e = IndexError /\
  ~ (- Z.of_nat (List.length l) <= i < Z.of_nat (List.length l))%Z.
Proof.
  unfold Py.getitem, ret, raise.
  destruct (Z.ltb_spec i 0) as [Hi|Hi];
    match goal with
    | |- context [(?a <? 0)%Z || (?b <=? ?c)%Z] =>
        destruct (Z.ltb_spec a 0); destruct (Z.leb_spec b c); simpl
    end;
    try (intro Heq; injection Heq as <-; split; [reflexivity|lia]);
    match goal with
    | |- context [nth_error l ?n] =>
        destruct (nth_error l n) eqn:E; [discriminate|];
        apply nth_error_None in E; exfalso; lia
    end.
Qed.

Lemma getitem_inr {A : Type} (l : list A) (i : Z) (a : A) :
  Py.getitem l i = inr a ->
  (- Z.of_nat (List.length l) <= i < Z.of_nat (List.length l))%Z.
Proof.
  unfold Py.getitem, ret, raise.
  destruct (Z.ltb_spec i 0) as [Hi|Hi];
    match goal with
    | |- context [(?a <? 0)%Z || (?b <=? ?c)%Z] =>
        destruct (Z.ltb_spec a 0); destruct (Z.leb_spec b c); simpl
    end; try discriminate; intros _; lia.
Qed.

Lemma getitem_map {A B : Type} (f : A -> B) (l : list A) (i : Z) :
  Py.getitem (map f l) i
  = match Py.getitem l i with
    | inl e => inl e
    | inr a => inr (f a)
    end.
Proof.
  unfold Py.getitem. rewrite length_map.
  destruct ((_ <? 0)%Z || (_ <=? _)%Z); [reflexivity|].
  rewrite nth_error_map.
  destruct (nth_error l _); reflexivity.
Qed.

(** ** Removal by identity *)

Section Removal.

Lemma filter_all (f : Car -> bool) (l : list Car) :
  (forall c, In c l -> f c = true) -> filter f l = l.
Proof.
  induction l as [|a t IH]; intro H; simpl; [reflexivity|].
  rewrite (H a (or_introl eq_refl)). f_equal.
  apply IH. intros c Hc. apply H. now right.
Qed.

Lemma oid_filter (f : Car -> bool) (l : list Car) :
  NoDup (map oid l) -> NoDup (map oid (filter f l)).
Proof.
  induction l as [|a t IH]; simpl; intro H; [constructor|].
  inversion H as [|? ? Hnot Hnd]; subst.
  destruct (f a); simpl; [|auto].
  constructor; [|auto].
  intro Hin. apply Hnot.
  apply in_map_iff in Hin. destruct Hin as [c [Hc Hin]].
  apply filter_In in Hin. apply in_map_iff. exists c. tauto.
Qed.

Lemma oid_inj (l : list Car) (a b : Car) :
  NoDup (map oid l) -> In a l -> In b l -> oid a = oid b -> a = b.
Proof.
  induction l as [|c t IH]; simpl; intros H Ha Hb E; [contradiction|].
  inversion H as [|? ? Hnot Hnd]; subst.
  destruct Ha as [->|Ha], Hb as [->|Hb]; auto.
  - exfalso. apply Hnot. rewrite E. now apply in_map.
  - exfalso. apply Hnot. rewrite <- E. now apply in_map.
Qed.

Lemma same_true (c c' : Car) : same c c' = true <-> oid c = oid c'.
Proof. unfold same. apply Nat.eqb_eq. Qed.

(** On distinct objects [if c in l: l.remove(c)] deletes what is [c]. *)
Lemma remove_one (c : Car) (l : list Car) :
  NoDup (map oid l) ->
  (if contains c l then remove_first c l else l)
  = filter (fun c' => negb (same c c')) l.
Proof.
  intro H. destruct (contains c l) eqn:E.
  - clear E. induction l as [|a t IH]; simpl; [reflexivity|].
    inversion H as [|? ? Hnot Hnd]; subst.
    destruct (same c a) eqn:Ea; simpl.
    + symmetry. apply filter_all. intros x Hx.
      apply negb_true_iff. apply not_true_is_false. intro Hs.
      apply same_true in Hs. apply same_true in Ea.
      apply Hnot. rewrite <- Ea, Hs. now apply in_map.
    + f_equal. auto.
  - symmetry. apply filter_all. intros x Hx.
    apply negb_true_iff. apply not_true_is_false. intro Hs.
    unfold contains in E.
    assert (existsb (same c) l = true) as Ht
      by (apply existsb_exists; eauto).
    congruence.
Qed.

Lemma remove_passed_filter (rs l : list Car) :
  NoDup (map oid l) ->
  remove_passed rs l
  = filter (fun c' => negb (existsb (fun c => same c c') rs)) l.
Proof.
  revert l. induction rs as [|c t IH]; intros l H; simpl.
  - symmetry. now apply filter_all.
  - rewrite (remove_one c l H).
    rewrite IH by now apply oid_filter.
    induction l as [|a u IHu]; simpl; [reflexivity|].
    inversion H; subst.
    destruct (same c a); simpl; [auto|].
    destruct (existsb (fun c0 => same c0 a) t); simpl; [auto|].
    f_equal. auto.
Qed.

(** Removing the cars of [l] that satisfy [f], collected in order, leaves
    the cars of [l] that do not. *)
Lemma remove_passed_partition (f : Car -> bool) (l : list Car) :
  NoDup (map oid l) ->
  remove_passed (filter f l) l = filter (fun c => negb (f c)) l.
Proof.
  intro H. rewrite (remove_passed_filter _ _ H).
  apply filter_ext_in. intros a Ha. f_equal.
  destruct (f a) eqn:Ef.
  - apply existsb_exists. exists a. split.
    + apply filter_In. auto.
    + now apply same_true.
  - apply not_true_is_false. intro He.
    apply existsb_exists in He. destruct He as [c [Hc Hs]].
    apply filter_In in Hc. destruct Hc as [Hc Hfc].
    apply same_true in Hs.
    rewrite (oid_inj l c a H Hc Ha Hs) in Hfc. congruence.
Qed.

End Removal.

(** ** The loop over the cars *)

Section MoveCars.

Variables (speeds : list Q) (dt : Q) (row : Z).

Lemma advance_fields (c c' : Car) :
  advance speeds dt c = inr c' ->
  oid c' = oid c /\ lane c' = lane c /\ art c' = art c /\
  exists speed, Py.getitem speeds (lane c) = inr speed /\
                y c' = y c + speed * dt.
Proof.
  unfold advance. destruct (Py.getitem speeds (lane c)) as [e|v]; simpl;
    [discriminate|].
  intro H. injection H as <-. simpl. repeat split; eauto.
Qed.

Lemma advanced_oid (cs moved : list Car) :
  advanced speeds dt cs moved -> map oid moved = map oid cs.
Proof.
  induction 1 as [|c c' cs moved H _ IH]; simpl; [reflexivity|].
  destruct (advance_fields _ _ H) as [-> _]. now f_equal.
Qed.

Lemma advanced_lanes (cs moved : list Car) :
  advanced speeds dt cs moved -> lanes_ok cs -> lanes_ok moved.
Proof.
  unfold lanes_ok.
  induction 1 as [|c c' cs moved H _ IH]; intro Hl; [constructor|].
  inversion Hl; subst. constructor; auto.
  destruct (advance_fields _ _ H) as [_ [-> _]]. assumption.
Qed.

(** What the loop returns: every car moved, [to_remove] the moved cars
    that have passed, one point and one pass for each of them. *)
Lemma move_cars_spec (cs : list Car) :
  forall (p s : Z) (gs : Q) (w : Sweep),
  move_cars speeds dt row p s gs cs = inr w ->
  advanced speeds dt cs (sw_cars w) /\
  sw_remove w = filter (gone row) (sw_cars w) /\
  sw_passed w = (p + Z.of_nat (List.length (sw_remove w)))%Z /\
  sw_score w = (s + Z.of_nat (List.length (sw_remove w)))%Z.
Proof.
  unfold advanced.
  induction cs as [|c rest IH]; intros p s gs w; simpl.
  - intro H. injection H as <-. simpl.
    repeat split; try constructor; lia.
  - destruct (advance speeds dt c) as [e|c'] eqn:Ec; simpl; [discriminate|].
    destruct (gone row c') eqn:Eg.
    + destruct (move_cars speeds dt row (p + 1) (s + 1) _ rest)
        as [e|w'] eqn:Ew; simpl; [discriminate|].
      intro H. injection H as <-. simpl. rewrite Eg.
      destruct (IH _ _ _ _ Ew) as (Ha & Hr & Hp & Hs).
      repeat split.
      * now constructor.
      * now f_equal.
      * rewrite Hp. simpl List.length. lia.
      * rewrite Hs. simpl List.length. lia.
    + destruct (move_cars speeds dt row p s gs rest)
        as [e|w'] eqn:Ew; simpl; [discriminate|].
      intro H. injection H as <-. simpl. rewrite Eg.
      destruct (IH _ _ _ _ Ew) as (Ha & Hr & Hp & Hs).
      split; [now constructor | auto].
Qed.

Lemma tens_step (p : Z) :
  ((p + 1) / 10 = p / 10 + (if (p + 1) mod 10 =? 0 then 1 else 0))%Z.
Proof.
  destruct (Z.eqb_spec ((p + 1) mod 10) 0) as [E|E];
    Z.to_euclidean_division_equations; lia.
Qed.

(** The speed the loop returns: one factor [1.22] for each multiple of ten
    the pass counter reaches. *)
Lemma move_cars_speed (cs : list Car) :
  forall (p s : Z) (gs : Q) (w : Sweep),
  move_cars speeds dt row p s gs cs = inr w ->
  (0 <= tens_crossed p (sw_passed w))%Z /\
  sw_speed w == gs * 1.22 ^ tens_crossed p (sw_passed w) /\
  (tens_crossed p (sw_passed w) = 0%Z -> sw_speed w = gs).
Proof.
  unfold tens_crossed.
  induction cs as [|c rest IH]; intros p s gs w; simpl.
  - intro H. injection H as <-. simpl. rewrite Z.sub_diag.
    repeat split; try lia. simpl. ring.
  - destruct (advance speeds dt c) as [e|c'] eqn:Ec; simpl; [discriminate|].
    destruct (gone row c') eqn:Eg.
    + destruct (move_cars speeds dt row (p + 1) (s + 1) _ rest)
        as [e|w'] eqn:Ew; simpl; [discriminate|].
      intro H. injection H as <-. simpl.
      destruct (IH _ _ _ _ Ew) as (Hk & Hq & He).
      pose proof (tens_step p) as Hstep.
      destruct (Z.eqb_spec ((p + 1) mod 10) 0) as [E|E].
      * repeat split; try lia.
        replace (sw_passed w' / 10 - p / 10)%Z
          with (1 + (sw_passed w' / 10 - (p + 1) / 10))%Z by lia.
        rewrite Qpower_plus by (intro H0; discriminate H0).
        rewrite Hq. rewrite Qpower_1_r. ring.
      * replace (sw_passed w' / 10 - p / 10)%Z
          with (sw_passed w' / 10 - (p + 1) / 10)%Z by lia.
        auto.
    + destruct (move_cars speeds dt row p s gs rest)
        as [e|w'] eqn:Ew; simpl; [discriminate|].
      intro H. injection H as <-. simpl. eauto.
Qed.

Lemma move_cars_total (cs : list Car) :
  (forall c, In c cs -> exists c', advance speeds dt c = inr c') ->
  forall (p s : Z) (gs : Q),
  exists w, move_cars speeds dt row p s gs cs = inr w.
Proof.
  induction cs as [|c rest IH]; intros Hall p s gs; simpl.
  - eexists. reflexivity.
  - destruct (Hall c (or_introl eq_refl)) as [c' ->]. simpl.
    assert (forall x, In x rest -> exists x', advance speeds dt x = inr x')
      as Hrest by (intros x Hx; apply Hall; now right).
    destruct (gone row c').
    + destruct (IH Hrest (p + 1)%Z (s + 1)%Z
                  (if ((p + 1) mod 10 =? 0)%Z then gs * 1.22 else gs))
        as [w ->].
      simpl. eexists. reflexivity.
    + destruct (IH Hrest p s gs) as [w ->]. simpl. eexists. reflexivity.
Qed.

End MoveCars.

(** ** The blocks of [update] *)

Lemma collision_check_spec (row pl : Z) (l : list Car) :
  forall r, collision_check row pl r l = r && negb (existsb (hits row pl) l).
Proof.
  induction l as [|c t IH]; intro r; simpl.
  - now rewrite andb_true_r.
  - rewrite IH. destruct (hits row pl c), r; reflexivity.
Qed.

Lemma spawn_logic_cases (g g1 : Game) (dt : Q) (d : Draw) :
  spawn_logic g dt d = inr g1 ->
  exists q, Py.div SPAWN_INTERVAL (global_speed g * 0.9) = inr q /\
    ((spawn_timer g - dt <= 0 /\
      g1 = spawn_car
             (set_spawn_timer g
                (Py.uniform (Py.max 0.15 q * 0.6) (Py.max 0.15 q * 1.4)
                            (rnd_timer d))) d)
     \/
     (~ spawn_timer g - dt <= 0 /\
      g1 = set_spawn_timer g (spawn_timer g - dt))).
Proof.
  unfold spawn_logic. simpl.
  destruct (Py.div SPAWN_INTERVAL (global_speed g * 0.9)) as [e|q];
    simpl; [discriminate|].
  intro H. exists q. split; [reflexivity|].
  destruct (Qle_bool (spawn_timer g - dt) 0.0) eqn:E.
  - left. apply Qle_bool_iff in E. split; [lra|].
    injection H as <-. reflexivity.
  - right. split.
    + intro Hle. assert (Qle_bool (spawn_timer g - dt) 0.0 = true) as Ht
        by (apply Qle_bool_iff; lra).
      congruence.
    + injection H as <-. reflexivity.
Qed.

Lemma move_and_judge_raw (g g' : Game) (dt : Q) :
  move_and_judge g dt = inr g' ->
  exists moved,
    advanced (lane_speeds (global_speed g)) dt (cars g) moved /\
    cars g' = remove_passed (filter (gone (player_row g)) moved) moved /\
    passed g' = (passed g
                 + Z.of_nat (List.length (filter (gone (player_row g)) moved)))%Z /\
    score g' = (score g
                + Z.of_nat (List.length (filter (gone (player_row g)) moved)))%Z /\
    running g' = collision_check (player_row g) (player_lane g) (running g)
                                 (cars g') /\
    (0 <= tens_crossed (passed g) (passed g'))%Z /\
    global_speed g'
      == global_speed g * 1.22 ^ tens_crossed (passed g) (passed g') /\
    (tens_crossed (passed g) (passed g') = 0%Z ->
     global_speed g' = global_speed g) /\
    height g' = height g /\ spawn_timer g' = spawn_timer g /\
    player_lane g' = player_lane g /\ next_id g' = next_id g.
Proof.
  unfold move_and_judge.
  destruct (move_cars _ dt (player_row g) (passed g) (score g)
                      (global_speed g) (cars g)) as [e|w] eqn:Ew;
    simpl; [discriminate|].
  intros H. injection H as <-. simpl.
  destruct (move_cars_spec _ _ _ _ _ _ _ _ Ew) as (Ha & Hr & Hp & Hs).
  destruct (move_cars_speed _ _ _ _ _ _ _ _ Ew) as (Hk & Hq & He).
  exists (sw_cars w). rewrite <- Hr.
  repeat split; auto.
Qed.

(** On distinct objects the cars left are the moved cars that have not
    passed. *)
Lemma move_and_judge_cars (g g' : Game) (dt : Q) (moved : list Car) :
  NoDup (map oid (cars g)) ->
  advanced (lane_speeds (global_speed g)) dt (cars g) moved ->
  cars g' = remove_passed (filter (gone (player_row g)) moved) moved ->
  cars g' = filter (fun c => negb (gone (player_row g) c)) moved.
Proof.
  intros Hnd Ha ->. apply remove_passed_partition.
  now rewrite (advanced_oid _ _ _ _ Ha).
Qed.

Lemma update_inr (g g' : Game) (dt : Q) (d : Draw) :
  update g dt d = inr g' ->
  exists g1, spawn_logic g dt d = inr g1 /\ move_and_judge g1 dt = inr g'.
Proof.
  unfold update. destruct (spawn_logic g dt d) as [e|g1]; simpl;
    [discriminate|].
  intro H. exists g1. auto.
Qed.

(** ** The invariant *)

Lemma spawn_car_distinct (g : Game) (d : Draw) :
  distinct g -> distinct (spawn_car g d).
Proof.
  unfold distinct. intros [Hnd Hlt]. simpl. split.
  - rewrite map_app. simpl.
    apply NoDup_app; [assumption|repeat constructor; intros []|].
    intros a Ha [<-|[]].
    apply in_map_iff in Ha. destruct Ha as [c [E Hc]].
    rewrite Forall_forall in Hlt. specialize (Hlt c Hc). lia.
  - apply Forall_app. split.
    + eapply Forall_impl; [|exact Hlt]. simpl. intros; lia.
    + repeat constructor.
Qed.

Lemma spawn_car_inv (g : Game) (d : Draw) :
  valid_draw d -> inv g -> inv (spawn_car g d).
Proof.
  intros Hd [Hdi Hl Hpl Hp Hs Hg]. constructor; simpl; auto.
  - now apply spawn_car_distinct.
  - apply Forall_app. split; [assumption|].
    repeat constructor; simpl; apply Hd.
Qed.

Lemma set_spawn_timer_inv (g : Game) (t : Q) :
  inv g -> inv (set_spawn_timer g t).
Proof. intros [Hdi Hl Hpl Hp Hs Hg]. constructor; assumption. Qed.

Lemma handle_input_inv (g : Game) (k : Key) :
  inv g -> inv (handle_input g k).
Proof.
  intros [Hdi Hl Hpl Hp Hs Hg].
  destruct k; simpl; constructor; simpl; auto;
    unfold clamp, LANE_COUNT in *; lia.
Qed.

Lemma spawn_logic_inv (g g1 : Game) (dt : Q) (d : Draw) :
  valid_draw d -> inv g -> spawn_logic g dt d = inr g1 -> inv g1.
Proof.
  intros Hd Hi H.
  destruct (spawn_logic_cases _ _ _ _ H) as [q [_ [[_ ->]|[_ ->]]]].
  - apply spawn_car_inv; [assumption|]. now apply set_spawn_timer_inv.
  - now apply set_spawn_timer_inv.
Qed.

Lemma ramp_grows (gs : Q) (k : Z) :
  0 < gs -> (0 <= k)%Z -> gs <= gs * 1.22 ^ k.
Proof.
  intros Hg Hk.
  assert (1 <= 1.22 ^ k) as H1 by (apply Qpower_1_le; [lra|assumption]).
  nra.
Qed.

Lemma ramp_grows_strictly (gs : Q) (k : Z) :
  0 < gs -> (0 < k)%Z -> gs < gs * 1.22 ^ k.
Proof.
  intros Hg Hk.
  assert (1 < 1.22 ^ k) as H1 by (apply Qpower_1_lt; [lra|assumption]).
  nra.
Qed.

Lemma move_and_judge_inv (g g' : Game) (dt : Q) :
  inv g -> move_and_judge g dt = inr g' -> inv g'.
Proof.
  intros [[Hnd Hlt] Hl Hpl Hp Hs Hg] H.
  destruct (move_and_judge_raw _ _ _ H)
    as (moved & Ha & Hc & Hpa & Hsc & _ & Hk & Hq & _ & _ & _ & Hpl' & Hn).
  apply (move_and_judge_cars _ _ _ _ Hnd Ha) in Hc.
  pose proof (advanced_oid _ _ _ _ Ha) as Hoid.
  constructor.
  - split; rewrite Hc.
    + apply oid_filter. now rewrite Hoid.
    + rewrite Hn. apply Forall_forall. intros c Hin.
      apply filter_In in Hin. destruct Hin as [Hin _].
      assert (In (oid c) (map oid (cars g))) as Ho
        by (rewrite <- Hoid; now apply in_map).
      apply in_map_iff in Ho. destruct Ho as [c0 [E Hc0]].
      rewrite Forall_forall in Hlt. rewrite <- E. now apply Hlt.
  - rewrite Hc. unfold lanes_ok. apply Forall_forall. intros c Hin.
    apply filter_In in Hin. destruct Hin as [Hin _].
    pose proof (advanced_lanes _ _ _ _ Ha Hl) as Hm.
    unfold lanes_ok in Hm. rewrite Forall_forall in Hm. now apply Hm.
  - now rewrite Hpl'.
  - lia.
  - lia.
  - rewrite Hq. pose proof (ramp_grows (global_speed g) _ ltac:(lra) Hk).
    lra.
Qed.

Lemma update_inv (g g' : Game) (dt : Q) (d : Draw) :
  valid_draw d -> inv g -> update g dt d = inr g' -> inv g'.
Proof.
  intros Hd Hi H. destruct (update_inr _ _ _ _ H) as [g1 [H1 H2]].
  eapply move_and_judge_inv; [|exact H2].
  eapply spawn_logic_inv; eauto.
Qed.

Lemma init_inv (h : Z) : inv (set_height init h).
Proof.
  constructor; simpl.
  - split; constructor.
  - constructor.
  - change (0 <= 2 < 5)%Z. lia.
  - lia.
  - reflexivity.
  - lra.
Qed.

Lemma seed_inv (ds : list Draw) :
  forall g, Forall valid_draw ds -> inv g -> inv (fold_left spawn_car ds g).
Proof.
  induction ds as [|d t IH]; intros g Hd Hi; simpl; [assumption|].
  inversion Hd; subst. apply IH; [assumption|]. now apply spawn_car_inv.
Qed.

Lemma initialize_inv (h : Z) (rnd : nat -> Draw) :
  (forall i, valid_draw (rnd i)) -> inv (initialize h rnd).
Proof.
  intro H. unfold initialize. apply seed_inv; [|apply init_inv].
  apply Forall_forall. intros d Hd.
  apply in_map_iff in Hd. destruct Hd as [i [<- _]]. apply H.
Qed.

Lemma reachable_inv (g : Game) : reachable g -> inv g.
Proof.
  induction 1 as [h rnd H|g g' f _ IH Hd Hf].
  - now apply initialize_inv.
  - unfold frame in Hf. eapply update_inv; [exact Hd| |exact Hf].
    now apply handle_input_inv.
Qed.

(** In exact arithmetic no exception is raised on a state that satisfies
    the invariant. *)
Lemma update_total (g : Game) (dt : Q) (d : Draw) :
  valid_draw d -> inv g -> exists g', update g dt d = inr g'.
Proof.
  intros Hd Hi.
  assert (exists g1, spawn_logic g dt d = inr g1) as [g1 H1].
  { unfold spawn_logic, Py.div. simpl.
    destruct (Qeq_bool (global_speed g * 0.9) 0) eqn:E.
    - apply Qeq_bool_iff in E. pose proof (inv_speed g Hi). lra.
    - simpl. destruct (Qle_bool (spawn_timer g - dt) 0.0);
        eexists; reflexivity. }
  pose proof (spawn_logic_inv _ _ _ _ Hd Hi H1) as Hi1.
  unfold update. rewrite H1. simpl. unfold move_and_judge.
  destruct (move_cars_total (lane_speeds (global_speed g1)) dt
              (player_row g1) (cars g1)) with
    (p := passed g1) (s := score g1) (gs := global_speed g1) as [w ->].
  - intros c Hc. pose proof (inv_lanes g1 Hi1) as Hl.
    unfold lanes_ok in Hl. rewrite Forall_forall in Hl.
    destruct (getitem_lane_speeds (global_speed g1) (lane c) (Hl c Hc))
      as [b [_ Hb]].
    unfold advance. rewrite Hb. simpl. eexists. reflexivity.
  - simpl. eexists. reflexivity.
Qed.

(** ** The tick on a state that is not running *)

Lemma update_set_running (g : Game) (b : bool) (dt : Q) (d : Draw) :
  update (set_running g b) dt d
  = match update g dt d with
    | inl e => inl e
    | inr g' =>
        inr (set_running g'
               (collision_check (player_row g) (player_lane g) b (cars g')))
    end.
Proof.
  unfold update, spawn_logic. simpl.
  destruct (Py.div SPAWN_INTERVAL (global_speed g * 0.9)) as [e|q]; simpl;
    [reflexivity|].
  destruct (Qle_bool (spawn_timer g - dt) 0.0); simpl;
    unfold move_and_judge, player_row; simpl;
    match goal with
    | |- context [move_cars ?a ?b ?c ?p ?s ?v ?l] =>
        destruct (move_cars a b c p s v l) as [e|w]; reflexivity
    end.
Qed.

Lemma run_stopped (g : Game) (fs : list Frame) :
  running g = false -> run g fs = inr g.
Proof. intro H. destruct fs as [|f rest]; simpl; [|rewrite H]; reflexivity. Qed.

(** C1, as the code has it.  [update] does not look at [running]: called on
    a state that is not running it spawns, moves, removes and scores as on
    a running one and leaves [running] false.  What keeps a stopped state
    unchanged is the loop, [while self.running], which runs no frame on
    it. *)
Theorem update_ignores_running (g : Game) (dt : Q) (d : Draw)
    (fs : list Frame) :
  running g = false ->
  run g fs = inr g /\
  forall g', update g dt d = inr g' ->
    running g' = false /\
    exists g'', update (set_running g true) dt d = inr g'' /\
                same_but_running g' g''.
Proof.
  intro Hr. split; [now apply run_stopped|].
  intros g' H. split.
  - destruct (update_inr _ _ _ _ H) as [g1 [H1 H2]].
    destruct (move_and_judge_raw _ _ _ H2) as (_ & _ & _ & _ & _ & Hrun & _).
    rewrite Hrun, collision_check_spec.
    destruct (spawn_logic_cases _ _ _ _ H1) as [q [_ [[_ ->]|[_ ->]]]];
      simpl; now rewrite Hr.
  - rewrite update_set_running, H. eexists. split; [reflexivity|].
    reflexivity.
Qed.

Lemma update_ignores_running_witness :
  running quit_game = false /\
  run quit_game [mkFrame NoKey 0.2 draw0] = inr quit_game /\
  forall g', update quit_game 0.2 draw0 = inr g' ->
    running g' = false /\
    exists g'', update (set_running quit_game true) 0.2 draw0 = inr g'' /\
                same_but_running g' g''.
Proof.
  split; [reflexivity|].
  apply (update_ignores_running quit_game 0.2 draw0 [mkFrame NoKey 0.2 draw0]).
  reflexivity.
Defined.

(** C1 as specified does not hold of [update]: the player quits,
    [handle_input] clears [running], and the [update] of the same frame
    still moves the car past the player, removes it and counts it. *)
Lemma quit_frame_still_ticks :
  running quit_game = false /\
  score quit_game = 0%Z /\ passed quit_game = 0%Z /\
  List.length (cars quit_game) = 1%nat /\
  exists g', update quit_game 0.2 draw0 = inr g' /\
    score g' = 1%Z /\ passed g' = 1%Z /\ cars g' = [] /\
    ~ spawn_timer g' == spawn_timer quit_game.
Proof.
  repeat split.
  eexists. split; [vm_compute; reflexivity|].
  repeat split. simpl. intro H. vm_compute in H. discriminate H.
Qed.

(** ** Pass detection *)

Lemma gone_floor (row : Z) (c : Car) :
  (0 <= row)%Z ->
  (gone row c = true <-> (row + 1 <= Qfloor (y c))%Z).
Proof.
  intro H. unfold gone. rewrite Z.leb_le. apply int_vs_floor. lia.
Qed.

Lemma spawn_logic_distinct (g g1 : Game) (dt : Q) (d : Draw) :
  distinct g -> spawn_logic g dt d = inr g1 ->
  distinct g1 /\ height g1 = height g /\ player_lane g1 = player_lane g /\
  passed g1 = passed g /\ score g1 = score g /\
  global_speed g1 = global_speed g /\ running g1 = running g.
Proof.
  intros Hd H.
  destruct (spawn_logic_cases _ _ _ _ H) as [q [_ [[_ ->]|[_ ->]]]].
  - split; [|repeat split]. now apply spawn_car_distinct.
  - split; [|repeat split]. exact Hd.
Qed.

(** C2, as the code has it.  The test of a passed car is [int(car.y)], the
    position truncated toward zero: after the motion a car is removed
    exactly when that integer is at least [player_row + 1], and the pass
    counter and the score each grow by the number of cars removed.  The
    truncation is the floor whenever the player row is not negative, that
    is on a field of at least three rows. *)
Theorem pass_detection_truncates (g g' : Game) (dt : Q) (d : Draw) :
  distinct g -> update g dt d = inr g' ->
  exists g1 moved,
    spawn_logic g dt d = inr g1 /\
    advanced (lane_speeds (global_speed g)) dt (cars g1) moved /\
    cars g' = filter (fun c => negb (gone (player_row g) c)) moved /\
    (forall c, In c (cars g') <->
               In c moved /\ (Py.int (y c) < player_row g + 1)%Z) /\
    passed g' = (passed g
                 + Z.of_nat (List.length (filter (gone (player_row g)) moved)))%Z /\
    score g' = (score g
                + Z.of_nat (List.length (filter (gone (player_row g)) moved)))%Z /\
    ((0 <= player_row g)%Z ->
     forall c, gone (player_row g) c = true
               <-> (player_row g + 1 <= Qfloor (y c))%Z).
Proof.
  intros Hd H. destruct (update_inr _ _ _ _ H) as [g1 [H1 H2]].
  destruct (spawn_logic_distinct _ _ _ _ Hd H1)
    as ([Hnd _] & Hh & Hpl & Hp & Hs & Hg & _).
  destruct (move_and_judge_raw _ _ _ H2)
    as (moved & Ha & Hc & Hpa & Hsc & _).
  apply (move_and_judge_cars _ _ _ _ Hnd Ha) in Hc.
  unfold player_row in *. rewrite Hh, ?Hg, ?Hp, ?Hs in *.
  exists g1, moved. repeat split; auto.
  - rewrite Hc in H0. apply filter_In in H0. tauto.
  - rewrite Hc in H0. apply filter_In in H0. destruct H0 as [_ Hn].
    apply negb_true_iff in Hn. unfold gone in Hn.
    apply Z.leb_gt in Hn. exact Hn.
  - intros [Hin Hlt]. rewrite Hc. apply filter_In. split; [assumption|].
    apply negb_true_iff. unfold gone. now apply Z.leb_gt.
  - apply gone_floor. assumption.
  - apply gone_floor. assumption.
Qed.

Lemma one_car_distinct (h ln : Z) (pos : Q) (pl : Z) :
  distinct (one_car h ln pos pl).
Proof.
  split; simpl.
  - constructor; [intros []|constructor].
  - repeat constructor.
Qed.

Lemma pass_detection_truncates_witness :
  distinct (one_car 13 2 10.9 2) /\
  exists g',
    update (one_car 13 2 10.9 2) 0.2 draw0 = inr g' /\
    exists g1 moved,
      spawn_logic (one_car 13 2 10.9 2) 0.2 draw0 = inr g1 /\
      advanced (lane_speeds 1.0) 0.2 (cars g1) moved /\
      cars g' = filter (fun c => negb (gone 10 c)) moved /\
      (forall c, In c (cars g') <->
                 In c moved /\ (Py.int (y c) < 10 + 1)%Z) /\
      passed g' = (0 + Z.of_nat (List.length (filter (gone 10) moved)))%Z /\
      score g' = (0 + Z.of_nat (List.length (filter (gone 10) moved)))%Z /\
      ((0 <= 10)%Z ->
       forall c, gone 10 c = true <-> (10 + 1 <= Qfloor (y c))%Z).
Proof.
  split; [apply one_car_distinct|].
  eexists. split; [vm_compute; reflexivity|].
  apply (pass_detection_truncates (one_car 13 2 10.9 2) _ 0.2 draw0).
  - apply one_car_distinct.
  - vm_compute. reflexivity.
Defined.

(** C2 as specified does not hold on a field of two rows, where the
    player row is [-1]: a car at [-0.5] has floor [-1], below
    [player_row + 1 = 0], yet [int(-0.5)] is [0] and the car is removed
    and counted. *)
Lemma floor_and_int_disagree :
  player_row (one_car 2 0 (-0.5) 2) = (-1)%Z /\
  exists c' g',
    advance (lane_speeds 1.0) 0 (mkCar 0 0 (-0.5) "<#>") = inr c' /\
    y c' == -0.5 /\
    (Qfloor (y c') < player_row (one_car 2 0 (-0.5) 2) + 1)%Z /\
    update (one_car 2 0 (-0.5) 2) 0 draw0 = inr g' /\
    cars g' = [] /\ passed g' = 1%Z /\ score g' = 1%Z.
Proof.
  split; [reflexivity|].
  eexists. eexists.
  split; [vm_compute; reflexivity|].
  split; [vm_compute; reflexivity|].
  split; [vm_compute; reflexivity|].
  split; [vm_compute; reflexivity|].
  repeat split.
Qed.

(** ** Collision detection *)

Lemma hits_spec (row pl : Z) (c : Car) :
  hits row pl c = true <-> Py.round (y c) = row /\ lane c = pl.
Proof.
  unfold hits. rewrite andb_true_iff, !Z.eqb_eq. tauto.
Qed.

Lemma update_running (g g' : Game) (dt : Q) (d : Draw) :
  update g dt d = inr g' ->
  running g' = running g
               && negb (existsb (hits (player_row g) (player_lane g))
                                (cars g')).
Proof.
  intro H. destruct (update_inr _ _ _ _ H) as [g1 [H1 H2]].
  destruct (move_and_judge_raw _ _ _ H2) as (_ & _ & _ & _ & _ & Hrun & _).
  rewrite Hrun, collision_check_spec.
  destruct (spawn_logic_cases _ _ _ _ H1) as [q [_ [[_ ->]|[_ ->]]]];
    reflexivity.
Qed.

(** C3.  On a running state the tick clears [running] exactly when a car
    left after pass detection has its position rounded to the player row
    and its lane equal to the player's.  With the player on row 10, a car
    of the player's lane at 9.6 is a collision; at 10.6 it is neither a
    collision nor a passed car, and the tick keeps it and keeps running. *)
Theorem collision_iff_rounded_hit :
  (forall (g g' : Game) (dt : Q) (d : Draw),
     running g = true -> update g dt d = inr g' ->
     (running g' = false <->
      exists c, In c (cars g') /\
                Py.round (y c) = player_row g /\ lane c = player_lane g)) /\
  (forall (o : nat) (a : string) (pl : Z),
     hits 10 pl (mkCar o pl 9.6 a) = true /\
     hits 10 pl (mkCar o pl 10.6 a) = false /\
     gone 10 (mkCar o pl 10.6 a) = false) /\
  (exists g', update (one_car 13 3 9.6 3) 0 draw0 = inr g' /\
              player_row (one_car 13 3 9.6 3) = 10%Z /\
              running g' = false) /\
  (exists g' c', update (one_car 13 3 10.6 3) 0 draw0 = inr g' /\
                 running g' = true /\ passed g' = 0%Z /\
                 cars g' = [c'] /\ oid c' = 0%nat /\ y c' == 10.6).
Proof.
  split; [|split; [|split]].
  - intros g g' dt d Hr H. rewrite (update_running _ _ _ _ H), Hr. simpl.
    rewrite negb_false_iff, existsb_exists.
    split; intros [c [Hin Hc]]; exists c; split; auto; now apply hits_spec.
  - intros o a pl. unfold hits, gone. simpl. rewrite Z.eqb_refl.
    repeat split.
  - eexists. split; [vm_compute; reflexivity|]. split; reflexivity.
  - eexists. eexists. split; [vm_compute; reflexivity|].
    repeat split.
Qed.

Lemma collision_iff_rounded_hit_witness :
  running (one_car 13 3 9.6 3) = true /\
  exists g', update (one_car 13 3 9.6 3) 0 draw0 = inr g' /\
    (running g' = false <->
     exists c, In c (cars g') /\ Py.round (y c) = 10%Z /\ lane c = 3%Z).
Proof.
  split; [reflexivity|].
  eexists. split; [vm_compute; reflexivity|].
  apply (proj1 collision_iff_rounded_hit (one_car 13 3 9.6 3) _ 0 draw0).
  - reflexivity.
  - vm_compute. reflexivity.
Defined.

(** ** The order of the two detections *)

(** C7.  The collision check runs on the list pass detection has left: the
    new [running] is the check of the cars that remain, none of which has
    passed, so only a car that survived pass detection can end the run. *)
Theorem collision_after_pass_detection (g g' : Game) (dt : Q) (d : Draw) :
  distinct g -> update g dt d = inr g' ->
  running g' = collision_check (player_row g) (player_lane g) (running g)
                               (cars g') /\
  Forall (fun c => gone (player_row g) c = false) (cars g') /\
  (running g = true -> running g' = false ->
   exists c, In c (cars g') /\
             hits (player_row g) (player_lane g) c = true /\
             gone (player_row g) c = false).
Proof.
  intros Hd H.
  assert (Forall (fun c => gone (player_row g) c = false) (cars g')) as Hall.
  { destruct (update_inr _ _ _ _ H) as [g1 [H1 H2]].
    destruct (spawn_logic_distinct _ _ _ _ Hd H1) as ([Hnd _] & Hh & _).
    destruct (move_and_judge_raw _ _ _ H2) as (moved & Ha & Hc & _).
    apply (move_and_judge_cars _ _ _ _ Hnd Ha) in Hc.
    unfold player_row in *. rewrite Hh in Hc. rewrite Hc.
    apply Forall_forall. intros c Hin. apply filter_In in Hin.
    now apply negb_true_iff. }
  pose proof (update_running _ _ _ _ H) as Hrun.
  split; [|split; [exact Hall|]].
  - now rewrite collision_check_spec.
  - intros Hr Hr'. rewrite Hr, Hr' in Hrun. simpl in Hrun.
    symmetry in Hrun. apply negb_false_iff, existsb_exists in Hrun.
    destruct Hrun as [c [Hin Hc]]. exists c. repeat split; auto.
    rewrite Forall_forall in Hall. now apply Hall.
Qed.

Lemma collision_after_pass_detection_witness :
  distinct (one_car 13 3 9.6 3) /\
  exists g', update (one_car 13 3 9.6 3) 0 draw0 = inr g' /\
    running g' = collision_check 10 3 true (cars g') /\
    Forall (fun c => gone 10 c = false) (cars g') /\
    (true = true -> running g' = false ->
     exists c, In c (cars g') /\ hits 10 3 c = true /\ gone 10 c = false).
Proof.
  split; [apply one_car_distinct|].
  eexists. split; [vm_compute; reflexivity|].
  apply (collision_after_pass_detection (one_car 13 3 9.6 3) _ 0 draw0).
  - apply one_car_distinct.
  - vm_compute. reflexivity.
Defined.

(** A car that meets both tests is taken by the first: on a field of two
    rows a car of the player's lane at [-0.7] truncates to [0], which is
    [player_row + 1], and rounds to [-1], the player row; the tick removes
    and counts it, and the game goes on. *)
Lemma passed_car_does_not_collide :
  exists c' g',
    advance (lane_speeds 1.0) 0 (mkCar 0 0 (-0.7) "<#>") = inr c' /\
    gone (-1) c' = true /\ hits (-1) 0 c' = true /\
    update (one_car 2 0 (-0.7) 0) 0 draw0 = inr g' /\
    cars g' = [] /\ passed g' = 1%Z /\ running g' = true.
Proof.
  eexists. eexists.
  split; [vm_compute; reflexivity|].
  split; [vm_compute; reflexivity|].
  split; [vm_compute; reflexivity|].
  split; [vm_compute; reflexivity|].
  repeat split.
Qed.

(** ** The simulation on binary64 numbers *)

(** *** Removal by identity *)

Section B64Removal.

Lemma b64_filter_all (f : B64.Car -> bool) (l : list B64.Car) :
  (forall c, In c l -> f c = true) -> filter f l = l.
Proof.
  induction l as [|a t IH]; intro H; simpl; [reflexivity|].
  rewrite (H a (or_introl eq_refl)). f_equal.
  apply IH. intros c Hc. apply H. now right.
Qed.

Lemma b64_oid_filter (f : B64.Car -> bool) (l : list B64.Car) :
  NoDup (map B64.oid l) -> NoDup (map B64.oid (filter f l)).
Proof.
  induction l as [|a t IH]; simpl; intro H; [constructor|].
  inversion H as [|? ? Hnot Hnd]; subst.
  destruct (f a); simpl; [|auto].
  constructor; [|auto].
  intro Hin. apply Hnot.
  apply in_map_iff in Hin. destruct Hin as [c [Hc Hin]].
  apply filter_In in Hin. apply in_map_iff. exists c. tauto.
Qed.

Lemma b64_oid_inj (l : list B64.Car) (a b : B64.Car) :
  NoDup (map B64.oid l) -> In a l -> In b l -> B64.oid a = B64.oid b ->
  a = b.
Proof.
  induction l as [|c t IH]; simpl; intros H Ha Hb E; [contradiction|].
  inversion H as [|? ? Hnot Hnd]; subst.
  destruct Ha as [->|Ha], Hb as [->|Hb]; auto.
  - exfalso. apply Hnot. rewrite E. now apply in_map.
  - exfalso. apply Hnot. rewrite <- E. now apply in_map.
Qed.

Lemma b64_same_true (c c' : B64.Car) :
  B64.same c c' = true <-> B64.oid c = B64.oid c'.
Proof. unfold B64.same. apply Nat.eqb_eq. Qed.

Lemma b64_remove_one (c : B64.Car) (l : list B64.Car) :
  NoDup (map B64.oid l) ->
  (if B64.contains c l then B64.remove_first c l else l)
  = filter (fun c' => negb (B64.same c c')) l.
Proof.
  intro H. destruct (B64.contains c l) eqn:E.
  - clear E. induction l as [|a t IH]; simpl; [reflexivity|].
    inversion H as [|? ? Hnot Hnd]; subst.
    destruct (B64.same c a) eqn:Ea; simpl.
    + symmetry. apply b64_filter_all. intros x Hx.
      apply negb_true_iff. apply not_true_is_false. intro Hs.
      apply b64_same_true in Hs. apply b64_same_true in Ea.
      apply Hnot. rewrite <- Ea, Hs. now apply in_map.
    + f_equal. auto.
  - symmetry. apply b64_filter_all. intros x Hx.
    apply negb_true_iff. apply not_true_is_false. intro Hs.
    unfold B64.contains in E.
    assert (existsb (B64.same c) l = true) as Ht
      by (apply existsb_exists; eauto).
    congruence.
Qed.

Lemma b64_remove_passed_filter (rs l : list B64.Car) :
  NoDup (map B64.oid l) ->
  B64.remove_passed rs l
  = filter (fun c' => negb (existsb (fun c => B64.same c c') rs)) l.
Proof.
  revert l. induction rs as [|c t IH]; intros l H; simpl.
  - symmetry. now apply b64_filter_all.
  - rewrite (b64_remove_one c l H).
    rewrite IH by now apply b64_oid_filter.
    induction l as [|a u IHu]; simpl; [reflexivity|].
    inversion H; subst.
    destruct (B64.same c a); simpl; [auto|].
    destruct (existsb (fun c0 => B64.same c0 a) t); simpl; [auto|].
    f_equal. auto.
Qed.

Lemma b64_remove_passed_partition (f : B64.Car -> bool) (l : list B64.Car) :
  NoDup (map B64.oid l) ->
  B64.remove_passed (filter f l) l = filter (fun c => negb (f c)) l.
Proof.
  intro H. rewrite (b64_remove_passed_filter _ _ H).
  apply filter_ext_in. intros a Ha. f_equal.
  destruct (f a) eqn:Ef.
  - apply existsb_exists. exists a. split.
    + apply filter_In. auto.
    + now apply b64_same_true.
  - apply not_true_is_false. intro He.
    apply existsb_exists in He. destruct He as [c [Hc Hs]].
    apply filter_In in Hc. destruct Hc as [Hc Hfc].
    apply b64_same_true in Hs.
    rewrite (b64_oid_inj l c a H Hc Ha Hs) in Hfc. congruence.
Qed.

(** Whatever the identities, the removal loop only takes cars away. *)
Lemma b64_remove_first_incl (c : B64.Car) (l : list B64.Car) (x : B64.Car) :
  In x (B64.remove_first c l) -> In x l.
Proof.
  induction l as [|a t IH]; simpl; [tauto|].
  destruct (B64.same c a); simpl; [tauto|].
  intros [->|H]; auto.
Qed.

Lemma b64_remove_passed_incl (rs : list B64.Car) :
  forall (l : list B64.Car) (x : B64.Car),
  In x (B64.remove_passed rs l) -> In x l.
Proof.
  induction rs as [|c t IH]; intros l x; simpl; [tauto|].
  intro H. apply IH in H.
  destruct (B64.contains c l); [|assumption].
  now apply b64_remove_first_incl in H.
Qed.

End B64Removal.

(** *** The loop over the cars *)

Lemma b64_int_round (x : float) (i : Z) :
  B64.int x = inr i -> exists j, B64.round x = inr j.
Proof.
  unfold B64.int, B64.round.
  destruct (Prim2SF x); try discriminate; intros _; eexists; reflexivity.
Qed.

(** [int] raises on the infinities and on nan, and only there. *)
Lemma b64_int_inl (x : float) (e : exn) :
  B64.int x = inl e ->
  (e = OverflowError /\ exists s, Prim2SF x = S754_infinity s) \/
  (e = ValueError /\ Prim2SF x = S754_nan).
Proof.
  unfold B64.int, ret, raise.
  destruct (Prim2SF x) as [s|s| |s m ex]; try discriminate;
    intro H; injection H as <-; eauto.
Qed.

Section B64MoveCars.

Variables (speeds : list float) (dt : float) (row : Z).

Lemma b64_advance_fields (c c' : B64.Car) :
  B64.advance speeds dt c = inr c' ->
  B64.oid c' = B64.oid c /\ B64.lane c' = B64.lane c /\
  B64.art c' = B64.art c /\
  exists speed, Py.getitem speeds (B64.lane c) = inr speed /\
                B64.y c' = (B64.y c + speed * dt)%float.
Proof.
  unfold B64.advance.
  destruct (Py.getitem speeds (B64.lane c)) as [e|v]; simpl; [discriminate|].
  intro H. injection H as <-. simpl. repeat split; eauto.
Qed.

Lemma b64_moved_row_inr (c : B64.Car) (ci : B64.Car * Z) :
  B64.moved_row speeds dt c = inr ci ->
  B64.advance speeds dt c = inr (fst ci) /\
  B64.int (B64.y (fst ci)) = inr (snd ci).
Proof.
  unfold B64.moved_row.
  destruct (B64.advance speeds dt c) as [e|c']; simpl; [discriminate|].
  destruct (B64.int (B64.y c')) as [e|i] eqn:Ei; simpl; [discriminate|].
  intro H. injection H as <-. simpl. auto.
Qed.

(** The motion of a car fails on a lane that is no index of the speeds, and
    on a moved position that is infinite or not a number. *)
Lemma b64_moved_row_inl (c : B64.Car) (e : exn) :
  B64.moved_row speeds dt c = inl e ->
  (B64.advance speeds dt c = inl e /\ e = IndexError /\
   ~ (- Z.of_nat (List.length speeds) <= B64.lane c
      < Z.of_nat (List.length speeds))%Z)
  \/
  (exists c', B64.advance speeds dt c = inr c' /\
              B64.int (B64.y c') = inl e /\
              ((e = OverflowError /\
                exists s, Prim2SF (B64.y c') = S754_infinity s) \/
               (e = ValueError /\ Prim2SF (B64.y c') = S754_nan))).
Proof.
  unfold B64.moved_row.
  destruct (B64.advance speeds dt c) as [e'|c'] eqn:Ea; simpl.
  - intro H. injection H as <-. left. split; [reflexivity|].
    unfold B64.advance in Ea.
    destruct (Py.getitem speeds (B64.lane c)) as [e0|v] eqn:Eg; simpl in Ea;
      [|discriminate].
    injection Ea as <-. exact (getitem_inl _ _ _ Eg).
  - destruct (B64.int (B64.y c')) as [e'|i] eqn:Ei; simpl; [|discriminate].
    intro H. injection H as <-. right. exists c'.
    split; [reflexivity|]. split; [exact Ei|]. exact (b64_int_inl _ _ Ei).
Qed.

Lemma b64_gone_row (c : B64.Car) (i : Z) :
  B64.int (B64.y c) = inr i -> B64.gone row c = (row + 1 <=? i)%Z.
Proof. unfold B64.gone. now intros ->. Qed.

Lemma b64_advanced_oid (cs moved : list B64.Car) :
  B64.advanced speeds dt cs moved -> map B64.oid moved = map B64.oid cs.
Proof.
  induction 1 as [|c c' cs moved H _ IH]; simpl; [reflexivity|].
  destruct (b64_advance_fields _ _ H) as [-> _]. now f_equal.
Qed.

(** What the loop returns: every car moved, to a position [int] accepts;
    [to_remove] the moved cars that have passed, one point and one pass
    for each of them. *)
Lemma b64_move_cars_spec (cs : list B64.Car) :
  forall (p s : Z) (gs : float) (w : B64.Sweep),
  B64.move_cars speeds dt row p s gs cs = inr w ->
  B64.advanced speeds dt cs (B64.sw_cars w) /\
  Forall (fun c => exists i, B64.int (B64.y c) = inr i) (B64.sw_cars w) /\
  B64.sw_remove w = filter (B64.gone row) (B64.sw_cars w) /\
  B64.sw_passed w = (p + Z.of_nat (List.length (B64.sw_remove w)))%Z /\
  B64.sw_score w = (s + Z.of_nat (List.length (B64.sw_remove w)))%Z.
Proof.
  unfold B64.advanced.
  induction cs as [|c rest IH]; intros p s gs w; simpl.
  - intro H. injection H as <-. simpl.
    repeat split; try constructor; lia.
  - destruct (B64.moved_row speeds dt c) as [e|ci] eqn:Ec; simpl;
      [discriminate|].
    destruct (b64_moved_row_inr _ _ Ec) as [Ha Hi].
    pose proof (b64_gone_row _ _ Hi) as Hg.
    destruct (row + 1 <=? snd ci)%Z.
    + destruct (B64.move_cars speeds dt row (p + 1) (s + 1) _ rest)
        as [e|w'] eqn:Ew; simpl; [discriminate|].
      intro H. injection H as <-. simpl. rewrite Hg.
      destruct (IH _ _ _ _ Ew) as (Hadv & Hint & Hr & Hp & Hs).
      repeat split.
      * now constructor.
      * constructor; eauto.
      * now f_equal.
      * rewrite Hp. simpl List.length. lia.
      * rewrite Hs. simpl List.length. lia.
    + destruct (B64.move_cars speeds dt row p s gs rest)
        as [e|w'] eqn:Ew; simpl; [discriminate|].
      intro H. injection H as <-. simpl. rewrite Hg.
      destruct (IH _ _ _ _ Ew) as (Hadv & Hint & Hr & Hp & Hs).
      split; [now constructor|]. split; [constructor; eauto|auto].
Qed.

(** The speed the loop returns is the running product: one more factor
    for each multiple of ten the pass counter reaches. *)
Lemma b64_move_cars_speed (cs : list B64.Car) :
  forall (p s : Z) (gs : float) (w : B64.Sweep),
  (0 <= p)%Z -> gs = B64.ramped (Z.to_nat (p / 10)) ->
  B64.move_cars speeds dt row p s gs cs = inr w ->
  (p <= B64.sw_passed w)%Z /\
  B64.sw_speed w = B64.ramped (Z.to_nat (B64.sw_passed w / 10)).
Proof.
  induction cs as [|c rest IH]; intros p s gs w Hp Hgs; simpl.
  - intro H. injection H as <-. simpl. split; [lia|assumption].
  - destruct (B64.moved_row speeds dt c) as [e|ci]; simpl; [discriminate|].
    destruct (row + 1 <=? snd ci)%Z.
    + destruct (B64.move_cars speeds dt row (p + 1) (s + 1) _ rest)
        as [e|w'] eqn:Ew; simpl; [discriminate|].
      intro H. injection H as <-. simpl.
      apply IH in Ew; [destruct Ew; split; [lia|assumption]|lia|].
      pose proof (tens_step p) as Hstep.
      assert (0 <= p / 10)%Z as Hq by (apply Z.div_pos; lia).
      destruct (Z.eqb_spec ((p + 1) mod 10) 0) as [E|E];
        cbv iota in Hstep.
      * replace (Z.to_nat ((p + 1) / 10)) with (S (Z.to_nat (p / 10)))
          by lia.
        simpl. now rewrite Hgs.
      * rewrite Hstep, Z.add_0_r. assumption.
    + destruct (B64.move_cars speeds dt row p s gs rest)
        as [e|w'] eqn:Ew; simpl; [discriminate|].
      intro H. injection H as <-. simpl. eauto.
Qed.

(** The loop raises what the motion of the first car that fails raises. *)
Lemma b64_move_cars_inl (cs : list B64.Car) :
  forall (p s : Z) (gs : float) (e : exn),
  B64.move_cars speeds dt row p s gs cs = inl e <->
  exists before c rest,
    cs = before ++ c :: rest /\
    (forall b, In b before -> exists ci, B64.moved_row speeds dt b = inr ci) /\
    B64.moved_row speeds dt c = inl e.
Proof.
  induction cs as [|c rest IH]; intros p s gs e; simpl.
  - split; [discriminate|].
    intros (before & c & rest & H & _). destruct before; discriminate.
  - destruct (B64.moved_row speeds dt c) as [e'|ci] eqn:Ec; simpl.
    + split.
      * intro H. injection H as <-. exists [], c, rest.
        split; [reflexivity|]. split; [intros b []|exact Ec].
      * intros (before & c0 & rest0 & H & Hb & Hc).
        destruct before as [|b before]; simpl in H;
          injection H as H0 H1; subst.
        -- congruence.
        -- destruct (Hb b (or_introl eq_refl)) as [ci H]. congruence.
    + assert (forall x : result B64.Sweep,
                (exists before c0 rest0,
                   rest = before ++ c0 :: rest0 /\
                   (forall b, In b before ->
                      exists ci, B64.moved_row speeds dt b = inr ci) /\
                   B64.moved_row speeds dt c0 = inl e)
                <->
                (exists before c0 rest0,
                   c :: rest = before ++ c0 :: rest0 /\
                   (forall b, In b before ->
                      exists ci, B64.moved_row speeds dt b = inr ci) /\
                   B64.moved_row speeds dt c0 = inl e)) as Hshift.
      { intros _. split.
        - intros (before & c0 & rest0 & -> & Hb & Hc).
          exists (c :: before), c0, rest0. split; [reflexivity|].
          split; [|exact Hc]. intros b [<-|Hin]; eauto.
        - intros (before & c0 & rest0 & H & Hb & Hc).
          destruct before as [|b before]; simpl in H;
            injection H as H0 H1; subst.
          + congruence.
          + exists before, c0, rest0. split; [reflexivity|].
            split; [|exact Hc]. intros x Hx. apply Hb. now right. }
      rewrite <- (Hshift (inl e)).
      destruct (row + 1 <=? snd ci)%Z.
      * rewrite <- (IH (p + 1)%Z (s + 1)%Z
                      (if ((p + 1) mod 10 =? 0)%Z then (gs * 1.22)%float
                       else gs) e).
        destruct (B64.move_cars speeds dt row (p + 1) (s + 1) _ rest)
          as [e'|w]; simpl; split; intro H;
          (discriminate || exact H).
      * rewrite <- (IH p s gs e).
        destruct (B64.move_cars speeds dt row p s gs rest)
          as [e'|w]; simpl; split; intro H;
          (discriminate || exact H).
Qed.

End B64MoveCars.

(** *** The blocks of [update] *)

(** After the loop over the cars the collision check raises nothing: the
    cars it rounds are cars [int] has accepted. *)
Lemma b64_collision_check_total (row pl : Z) (l : list B64.Car) :
  Forall (fun c => exists i, B64.int (B64.y c) = inr i) l ->
  forall r, exists r', B64.collision_check row pl r l = inr r'.
Proof.
  induction 1 as [|c t [i Hi] _ IH]; intro r; simpl.
  - eexists. reflexivity.
  - destruct (b64_int_round _ _ Hi) as [j ->]. simpl. apply IH.
Qed.

Lemma b64_getitem_lane_speeds (gs : float) (i : Z) :
  Py.getitem (B64.lane_speeds gs) i
  = match Py.getitem B64.BASE_LANE_SPEEDS i with
    | inl e => inl e
    | inr base => inr (base * gs)%float
    end.
Proof. unfold B64.lane_speeds. apply getitem_map. Qed.

Lemma b64_advance_exact (gs dt : float) (c c' : B64.Car) :
  B64.advance (B64.lane_speeds gs) dt c = inr c' ->
  B64.oid c' = B64.oid c /\ B64.lane c' = B64.lane c /\
  B64.art c' = B64.art c /\
  exists base, Py.getitem B64.BASE_LANE_SPEEDS (B64.lane c) = inr base /\
               B64.y c' = (B64.y c + base * gs * dt)%float.
Proof.
  intro H. destruct (b64_advance_fields _ _ _ _ H)
    as (Ho & Hl & Ha & speed & Hg & Hy).
  repeat split; auto.
  rewrite b64_getitem_lane_speeds in Hg.
  destruct (Py.getitem B64.BASE_LANE_SPEEDS (B64.lane c)) as [e|base];
    [discriminate|].
  injection Hg as <-. exists base. auto.
Qed.

Lemma b64_spawn_car_distinct (g : B64.Game) (d : B64.Draw) :
  B64.distinct g -> B64.distinct (B64.spawn_car g d).
Proof.
  unfold B64.distinct. intros [Hnd Hlt]. simpl. split.
  - rewrite map_app. simpl.
    apply NoDup_app; [assumption|repeat constructor; intros []|].
    intros a Ha [<-|[]].
    apply in_map_iff in Ha. destruct Ha as [c [E Hc]].
    rewrite Forall_forall in Hlt. specialize (Hlt c Hc). lia.
  - apply Forall_app. split.
    + eapply Forall_impl; [|exact Hlt]. simpl. intros; lia.
    + repeat constructor.
Qed.

(** The spawn block raises exactly when the divisor is zero; it writes the
    timer and may append one car, nothing else. *)
Lemma b64_spawn_logic_cases (g : B64.Game) (dt : float) (d : B64.Draw) :
  ((B64.global_speed g * 0.9 =? 0)%float = true /\
   B64.spawn_logic g dt d = inl ZeroDivisionError)
  \/
  ((B64.global_speed g * 0.9 =? 0)%float = false /\
   exists g1, B64.spawn_logic g dt d = inr g1 /\
     B64.height g1 = B64.height g /\ B64.passed g1 = B64.passed g /\
     B64.score g1 = B64.score g /\
     B64.global_speed g1 = B64.global_speed g /\
     B64.player_lane g1 = B64.player_lane g /\
     B64.running g1 = B64.running g /\
     (B64.cars g1 = B64.cars g /\ B64.next_id g1 = B64.next_id g \/
      exists t, g1 = B64.spawn_car (B64.set_spawn_timer g t) d)).
Proof.
  unfold B64.spawn_logic, B64.div. simpl.
  destruct (B64.global_speed g * 0.9 =? 0)%float; [left; auto|right].
  split; [reflexivity|]. simpl.
  destruct (B64.spawn_timer g - dt <=? 0.0)%float.
  - eexists. split; [reflexivity|]. simpl. repeat split. right.
    eexists. reflexivity.
  - eexists. split; [reflexivity|]. simpl. repeat split. left. auto.
Qed.

Lemma b64_spawn_logic_distinct (g g1 : B64.Game) (dt : float) (d : B64.Draw) :
  B64.distinct g -> B64.spawn_logic g dt d = inr g1 -> B64.distinct g1.
Proof.
  intros Hd H.
  destruct (b64_spawn_logic_cases g dt d) as [[_ H0]|[_ [g1' [H1 Hf]]]];
    [congruence|].
  rewrite H1 in H. injection H as <-.
  destruct Hf as (_ & _ & _ & _ & _ & _ & [[Hc Hn]|[t ->]]).
  - unfold B64.distinct in *. now rewrite Hc, Hn.
  - apply b64_spawn_car_distinct. exact Hd.
Qed.

(** The second half of the tick, once the loop over the cars has returned:
    it returns as well. *)
Lemma b64_move_and_judge_cases (g : B64.Game) (dt : float) :
  (exists e, B64.move_and_judge g dt = inl e /\
     B64.move_cars (B64.lane_speeds (B64.global_speed g)) dt
       (B64.player_row g) (B64.passed g) (B64.score g) (B64.global_speed g)
       (B64.cars g) = inl e)
  \/
  (exists w r,
     B64.move_cars (B64.lane_speeds (B64.global_speed g)) dt
       (B64.player_row g) (B64.passed g) (B64.score g) (B64.global_speed g)
       (B64.cars g) = inr w /\
     B64.move_and_judge g dt
     = inr (B64.mkGame (B64.height g) (B64.spawn_timer g)
              (B64.remove_passed (B64.sw_remove w) (B64.sw_cars w))
              (B64.sw_passed w) (B64.sw_speed w) (B64.player_lane g) r
              (B64.sw_score w) (B64.next_id g))).
Proof.
  unfold B64.move_and_judge.
  destruct (B64.move_cars _ dt (B64.player_row g) (B64.passed g)
              (B64.score g) (B64.global_speed g) (B64.cars g))
    as [e|w] eqn:Ew; simpl.
  - left. eauto.
  - right.
    destruct (b64_move_cars_spec _ _ _ _ _ _ _ _ Ew) as (_ & Hint & _).
    assert (Forall (fun c => exists i, B64.int (B64.y c) = inr i)
              (B64.remove_passed (B64.sw_remove w) (B64.sw_cars w))) as Hok.
    { apply Forall_forall. intros c Hc.
      apply b64_remove_passed_incl in Hc.
      rewrite Forall_forall in Hint. now apply Hint. }
    destruct (b64_collision_check_total (B64.player_row g)
                (B64.player_lane g) _ Hok (B64.running g)) as [r Hr].
    exists w, r. split; [reflexivity|]. rewrite Hr. reflexivity.
Qed.

Lemma b64_update_inr (g g' : B64.Game) (dt : float) (d : B64.Draw) :
  B64.update g dt d = inr g' ->
  exists g1, B64.spawn_logic g dt d = inr g1 /\
             B64.move_and_judge g1 dt = inr g'.
Proof.
  unfold B64.update. destruct (B64.spawn_logic g dt d) as [e|g1]; simpl;
    [discriminate|].
  intro H. exists g1. auto.
Qed.

(** The cars a tick leaves, on distinct objects. *)
Lemma b64_update_cars (g g' : B64.Game) (dt : float) (d : B64.Draw) :
  B64.distinct g -> B64.update g dt d = inr g' ->
  exists g1 moved,
    B64.spawn_logic g dt d = inr g1 /\
    B64.advanced (B64.lane_speeds (B64.global_speed g)) dt
                 (B64.cars g1) moved /\
    B64.cars g'
    = filter (fun c => negb (B64.gone (B64.player_row g) c)) moved /\
    B64.next_id g' = B64.next_id g1.
Proof.
  intros Hd H. destruct (b64_update_inr _ _ _ _ H) as [g1 [H1 H2]].
  pose proof (b64_spawn_logic_distinct _ _ _ _ Hd H1) as [Hnd _].
  destruct (b64_spawn_logic_cases g dt d) as [[_ H0]|[_ [g1' [H1' Hf]]]];
    [congruence|].
  rewrite H1 in H1'. injection H1' as <-.
  destruct Hf as (Hh & _ & _ & Hg & _).
  destruct (b64_move_and_judge_cases g1 dt) as [[e [He _]]|[w [r [Hw Hm]]]];
    [congruence|].
  rewrite H2 in Hm. injection Hm as ->. simpl.
  destruct (b64_move_cars_spec _ _ _ _ _ _ _ _ Hw) as (Ha & _ & Hr & _).
  exists g1, (B64.sw_cars w). rewrite Hg in Ha.
  split; [exact H1|]. split; [exact Ha|]. split; [|reflexivity].
  rewrite Hr. unfold B64.player_row. rewrite Hh.
  apply b64_remove_passed_partition.
  now rewrite (b64_advanced_oid _ _ _ _ Ha).
Qed.

(** *** The running product of the ramp *)

Lemma b64_all_ramps_spec (P : float -> bool) (n : nat) :
  forall j : nat,
  B64.all_ramps P n (B64.ramped j) = true ->
  forall i : nat, (i < n)%nat -> P (B64.ramped (j + i)) = true.
Proof.
  induction n as [|n IH]; intros j H i Hi; [lia|].
  simpl in H. apply andb_true_iff in H. destruct H as [H0 Hn].
  destruct i as [|i].
  - now rewrite Nat.add_0_r.
  - replace (j + S i)%nat with (S j + i)%nat by lia.
    apply (IH (S j)); [exact Hn|lia].
Qed.

(** The product overflows at the 3570th factor and stays infinite. *)
Lemma b64_ramped_overflow (k : nat) :
  (3570 <= k)%nat -> B64.ramped k = infinity.
Proof.
  induction 1 as [|k _ IH].
  - vm_compute. reflexivity.
  - simpl. rewrite IH. vm_compute. reflexivity.
Qed.

Lemma b64_ramped_finite (k : nat) :
  (k < 3570)%nat ->
  (1.0 <=? B64.ramped k)%float = true /\
  (B64.ramped k <? infinity)%float = true /\
  (B64.ramped k * 0.9 =? 0)%float = false.
Proof.
  intro Hk.
  pose proof (b64_all_ramps_spec
                (fun x => (1.0 <=? x) && (x <? infinity)
                          && negb (x * 0.9 =? 0))%float
                3570 0) as H.
  specialize (H ltac:(vm_compute; reflexivity) k Hk). simpl in H.
  apply andb_true_iff in H. destruct H as [H H3].
  apply andb_true_iff in H. destruct H as [H1 H2].
  apply negb_true_iff in H3. auto.
Qed.

Lemma b64_ramped_divisor (k : nat) :
  (B64.ramped k * 0.9 =? 0)%float = false.
Proof.
  destruct (le_lt_dec 3570 k) as [H|H].
  - rewrite (b64_ramped_overflow k H). vm_compute. reflexivity.
  - apply (b64_ramped_finite k H).
Qed.

Lemma b64_ramped_lower (k : nat) : (1.0 <=? B64.ramped k)%float = true.
Proof.
  destruct (le_lt_dec 3570 k) as [H|H].
  - rewrite (b64_ramped_overflow k H). vm_compute. reflexivity.
  - apply (b64_ramped_finite k H).
Qed.

(** *** The invariant *)

Lemma b64_spawn_car_inv (g : B64.Game) (d : B64.Draw) :
  B64.valid_draw d -> B64.inv g -> B64.inv (B64.spawn_car g d).
Proof.
  intros Hd [Hdi Hl Hp Hs]. constructor; simpl; auto.
  - now apply b64_spawn_car_distinct.
  - apply Forall_app. split; [assumption|].
    repeat constructor; simpl; apply Hd.
Qed.

Lemma b64_set_spawn_timer_inv (g : B64.Game) (t : float) :
  B64.inv g -> B64.inv (B64.set_spawn_timer g t).
Proof. intros [Hdi Hl Hp Hs]. constructor; assumption. Qed.

Lemma b64_handle_input_inv (g : B64.Game) (k : Key) :
  B64.inv g -> B64.inv (B64.handle_input g k).
Proof. intros [Hdi Hl Hp Hs]. destruct k; constructor; assumption. Qed.

Lemma b64_spawn_logic_inv (g g1 : B64.Game) (dt : float) (d : B64.Draw) :
  B64.valid_draw d -> B64.inv g -> B64.spawn_logic g dt d = inr g1 ->
  B64.inv g1.
Proof.
  intros Hd Hi H.
  destruct (b64_spawn_logic_cases g dt d) as [[_ H0]|[_ [g1' [H1 Hf]]]];
    [congruence|].
  rewrite H1 in H. injection H as <-.
  destruct Hf as (_ & Hp & _ & Hg & _ & _ & [[Hc Hn]|[t ->]]).
  - destruct Hi as [Hdi Hl Hpa Hs]. constructor.
    + unfold B64.distinct in *. now rewrite Hc, Hn.
    + now rewrite Hc.
    + now rewrite Hp.
    + now rewrite Hg, Hp.
  - apply b64_spawn_car_inv; [assumption|].
    now apply b64_set_spawn_timer_inv.
Qed.

Lemma b64_advanced_lanes (speeds : list float) (dt : float)
    (cs moved : list B64.Car) :
  B64.advanced speeds dt cs moved ->
  Forall (fun c => (0 <= B64.lane c < LANE_COUNT)%Z) cs ->
  Forall (fun c => (0 <= B64.lane c < LANE_COUNT)%Z) moved.
Proof.
  induction 1 as [|c c' cs moved H _ IH]; intro Hl; [constructor|].
  inversion Hl; subst. constructor; auto.
  destruct (b64_advance_fields _ _ _ _ H) as [_ [-> _]]. assumption.
Qed.

Lemma b64_move_and_judge_inv (g g' : B64.Game) (dt : float) :
  B64.inv g -> B64.move_and_judge g dt = inr g' -> B64.inv g'.
Proof.
  intros [[Hnd Hlt] Hl Hp Hs] H.
  destruct (b64_move_and_judge_cases g dt) as [[e [He _]]|[w [r [Hw Hm]]]];
    [congruence|].
  rewrite H in Hm. injection Hm as ->.
  destruct (b64_move_cars_spec _ _ _ _ _ _ _ _ Hw) as (Ha & _ & Hr & _).
  destruct (b64_move_cars_speed _ _ _ _ _ _ _ _ Hp Hs Hw) as [Hle Hsp].
  pose proof (b64_advanced_oid _ _ _ _ Ha) as Hoid.
  assert (B64.remove_passed (B64.sw_remove w) (B64.sw_cars w)
          = filter (fun c => negb (B64.gone (B64.player_row g) c))
                   (B64.sw_cars w)) as Hc.
  { rewrite Hr. apply b64_remove_passed_partition. now rewrite Hoid. }
  constructor; simpl.
  - split; simpl; rewrite Hc.
    + apply b64_oid_filter. now rewrite Hoid.
    + apply Forall_forall. intros c Hin.
      apply filter_In in Hin. destruct Hin as [Hin _].
      assert (In (B64.oid c) (map B64.oid (B64.cars g))) as Ho
        by (rewrite <- Hoid; now apply in_map).
      apply in_map_iff in Ho. destruct Ho as [c0 [E Hc0]].
      rewrite Forall_forall in Hlt. rewrite <- E. now apply Hlt.
  - rewrite Hc. apply Forall_forall. intros c Hin.
    apply filter_In in Hin. destruct Hin as [Hin _].
    pose proof (b64_advanced_lanes _ _ _ _ Ha Hl) as Hm.
    rewrite Forall_forall in Hm. now apply Hm.
  - lia.
  - exact Hsp.
Qed.

Lemma b64_update_inv (g g' : B64.Game) (dt : float) (d : B64.Draw) :
  B64.valid_draw d -> B64.inv g -> B64.update g dt d = inr g' -> B64.inv g'.
Proof.
  intros Hd Hi H. destruct (b64_update_inr _ _ _ _ H) as [g1 [H1 H2]].
  eapply b64_move_and_judge_inv; [|exact H2].
  eapply b64_spawn_logic_inv; eauto.
Qed.

Lemma b64_seed_inv (ds : list B64.Draw) :
  forall g, Forall B64.valid_draw ds -> B64.inv g ->
            B64.inv (fold_left B64.spawn_car ds g).
Proof.
  induction ds as [|d t IH]; intros g Hd Hi; simpl; [assumption|].
  inversion Hd; subst. apply IH; [assumption|]. now apply b64_spawn_car_inv.
Qed.

Lemma b64_initialize_inv (h : Z) (rnd : nat -> B64.Draw) :
  (forall i, B64.valid_draw (rnd i)) -> B64.inv (B64.initialize h rnd).
Proof.
  intro Hr. unfold B64.initialize. apply b64_seed_inv.
  - apply Forall_forall. intros d Hd. apply in_map_iff in Hd.
    destruct Hd as [i [<- _]]. apply Hr.
  - constructor; simpl.
    + split; constructor.
    + constructor.
    + lia.
    + reflexivity.
Qed.

Lemma b64_reachable_inv (g : B64.Game) : B64.reachable g -> B64.inv g.
Proof.
  induction 1 as [h rnd Hr|g g' f _ IH Hd Hf].
  - now apply b64_initialize_inv.
  - unfold B64.frame in Hf.
    eapply b64_update_inv; [exact Hd| |exact Hf].
    now apply b64_handle_input_inv.
Qed.

Lemma b64_valid_draw0 : B64.valid_draw B64.draw0.
Proof. unfold B64.valid_draw, LANE_COUNT. simpl. lia. Defined.

Lemma b64_run_reachable (fs : list B64.Frame) :
  forall g g' : B64.Game,
  B64.reachable g -> Forall (fun f => B64.valid_draw (B64.fr_draw f)) fs ->
  B64.run g fs = inr g' -> B64.reachable g'.
Proof.
  induction fs as [|f rest IH]; intros g g' Hr Hfs; simpl.
  - intro H. injection H as <-. exact Hr.
  - inversion Hfs; subst.
    destruct (B64.running g); [|intro H; injection H as <-; exact Hr].
    destruct (B64.frame g f) as [e|g1] eqn:Ef; simpl; [discriminate|].
    apply IH; [|assumption].
    exact (B64.reach_frame g g1 f Hr ltac:(assumption) Ef).
Defined.

Lemma b64_sample_frames_valid :
  Forall (fun f => B64.valid_draw (B64.fr_draw f)) B64.sample_frames.
Proof.
  apply Forall_forall. intros f Hf. apply repeat_spec in Hf. subst f.
  exact b64_valid_draw0.
Defined.

Lemma b64_nine_passed_distinct : B64.distinct B64.nine_passed.
Proof.
  unfold B64.distinct, B64.nine_passed. simpl. split.
  - repeat constructor; simpl; intuition discriminate.
  - repeat constructor.
Defined.

(** *** Motion *)

(** C4.  The tick moves every car, the one spawned in the same tick
    included, to the position [y + (base * speed) * dt] as binary64
    arithmetic computes it, each product and the sum rounded, where [base]
    is the entry of its lane in [BASE_LANE_SPEEDS], a list of [LANE_COUNT]
    entries, and [speed] the global speed the tick started with; the cars
    of the new state are the moved cars that have not passed.  With speed
    1.0 and [dt = 1.0] a car of lane 2 at -1.0 is at 0.6000000000000001
    after the tick, the double next above the one written 0.6. *)
Theorem motion_binary64 :
  (forall (g g' : B64.Game) (dt : float) (d : B64.Draw),
     B64.distinct g -> B64.update g dt d = inr g' ->
     exists g1 moved,
       B64.spawn_logic g dt d = inr g1 /\
       Forall2 (fun c c' =>
                  B64.oid c' = B64.oid c /\ B64.lane c' = B64.lane c /\
                  B64.art c' = B64.art c /\
                  exists base,
                    Py.getitem B64.BASE_LANE_SPEEDS (B64.lane c) = inr base /\
                    B64.y c'
                    = (B64.y c + base * B64.global_speed g * dt)%float)
               (B64.cars g1) moved /\
       B64.cars g'
       = filter (fun c => negb (B64.gone (B64.player_row g) c)) moved) /\
  Z.of_nat (List.length B64.BASE_LANE_SPEEDS) = LANE_COUNT /\
  B64.BASE_LANE_SPEEDS = [0.9; 1.2; 1.6; 1.0; 1.4]%float /\
  (exists g' c',
     B64.update (B64.one_car 13 2 (-1.0) 3) 1.0 B64.draw0 = inr g' /\
     B64.cars g' = [c'] /\ B64.oid c' = 0%nat /\ B64.lane c' = 2%Z /\
     B64.y c' = 0.6000000000000001%float /\
     B64.y c' = next_up 0.6 /\
     (B64.y c' =? 0.6)%float = false).
Proof.
  split; [|split; [reflexivity|split; [reflexivity|]]].
  - intros g g' dt d Hd H.
    destruct (b64_update_cars _ _ _ _ Hd H) as (g1 & moved & H1 & Ha & Hc & _).
    exists g1, moved. repeat split; auto.
    unfold B64.advanced in Ha. eapply Forall2_impl; [|exact Ha].
    intros c c' Hadv. exact (b64_advance_exact _ _ _ _ Hadv).
  - eexists. eexists. split; [vm_compute; reflexivity|].
    repeat split; vm_compute; reflexivity.
Qed.

Lemma motion_binary64_witness :
  B64.distinct B64.nine_passed /\
  exists g',
    B64.update B64.nine_passed 0.2 B64.draw0 = inr g' /\
    List.length (B64.cars g') = 2%nat /\ B64.passed g' = 10%Z /\
    exists g1 moved,
      B64.spawn_logic B64.nine_passed 0.2 B64.draw0 = inr g1 /\
      Forall2 (fun c c' =>
                 B64.oid c' = B64.oid c /\ B64.lane c' = B64.lane c /\
                 B64.art c' = B64.art c /\
                 exists base,
                   Py.getitem B64.BASE_LANE_SPEEDS (B64.lane c) = inr base /\
                   B64.y c' = (B64.y c + base * 1.0 * 0.2)%float)
              (B64.cars g1) moved /\
      B64.cars g' = filter (fun c => negb (B64.gone 10 c)) moved.
Proof.
  split; [exact b64_nine_passed_distinct|].
  eexists. split; [vm_compute; reflexivity|].
  split; [reflexivity|]. split; [reflexivity|].
  apply (proj1 motion_binary64 B64.nine_passed _ 0.2%float B64.draw0).
  - exact b64_nine_passed_distinct.
  - vm_compute. reflexivity.
Defined.

(** The position the tick of the example stores is not the double written
    0.6: it is the next one above it. *)
Lemma stored_position_is_not_0_6 :
  exists g' c',
    B64.update (B64.one_car 13 2 (-1.0) 3) 1.0 B64.draw0 = inr g' /\
    B64.cars g' = [c'] /\ B64.lane c' = 2%Z /\
    B64.y c' = (-1.0 + 1.6 * 1.0 * 1.0)%float /\
    (B64.y c' =? 0.6)%float = false /\
    (0.6 <? B64.y c')%float = true /\
    B64.y c' = 0.6000000000000001%float.
Proof.
  eexists. eexists. split; [vm_compute; reflexivity|].
  repeat split; vm_compute; reflexivity.
Qed.

(** ** The ramp *)

Lemma crossing_iff (p p' : Z) :
  (exists m, p < 10 * m <= p')%Z <-> (0 < tens_crossed p p')%Z.
Proof.
  unfold tens_crossed. split.
  - intros [m Hm]. Z.to_euclidean_division_equations. lia.
  - intro H. exists (p' / 10)%Z. Z.to_euclidean_division_equations. lia.
Qed.

(** [tens_crossed p p'] counts the multiples of ten in [(p, p']]: they are
    the [10 * m] for the [m] of an interval of that many integers. *)
Lemma tens_crossed_counts (p p' m : Z) :
  (p < 10 * m <= p')%Z <-> (p / 10 < m <= p / 10 + tens_crossed p p')%Z.
Proof.
  unfold tens_crossed. split; intro H;
    Z.to_euclidean_division_equations; lia.
Qed.



(** ** The spawner *)



(** C9 as specified does not hold: [random.uniform(0.0, 8)] returns
    [0.0] when [random()] does, and the car then starts at position zero,
    which is not negative. *)
Lemma spawn_at_distance_zero :
  valid_draw draw_zero /\
  exists c, cars (spawn_car init draw_zero) = [c] /\
            y c == 0 /\ ~ y c < 0.
Proof.
  split.
  - unfold valid_draw, draw_zero, LANE_COUNT. simpl.
    repeat split; try lra; lia.
  - eexists. split; [reflexivity|]. split; [reflexivity|].
    simpl. intro H. vm_compute in H. discriminate H.
Qed.

Lemma spawned_car (g : Game) (d : Draw) :
  valid_draw d ->
  exists c,
    cars (spawn_car g d) = cars g ++ [c] /\
    (0 <= lane c < LANE_COUNT)%Z /\ In (art c) CAR_CHARS /\
    y c == - (INITIAL_DISTANCE_MAX * rnd_dist d) /\
    y c <= 0 /\ - INITIAL_DISTANCE_MAX < y c /\
    (0 < rnd_dist d -> y c < 0).
Proof.
  intros (_ & _ & Hl & Ha & Hd0 & Hd1).
  eexists. split; [reflexivity|].
  split; [exact Hl|]. split; [apply nth_In; exact Ha|].
  simpl. unfold Py.uniform, INITIAL_DISTANCE_MAX.
  repeat split; lra.
Qed.

Lemma seed_cars (ds : list Draw) :
  Forall valid_draw ds ->
  forall g, exists new,
    cars (fold_left spawn_car ds g) = cars g ++ new /\
    List.length new = List.length ds /\
    Forall (fun c => (0 <= lane c < LANE_COUNT)%Z /\
                     In (art c) CAR_CHARS /\ y c <= 0) new.
Proof.
  induction 1 as [|d t Hd _ IH]; intro g; simpl.
  - exists []. rewrite app_nil_r. repeat split. constructor.
  - destruct (IH (spawn_car g d)) as (new & Hc & Hlen & Hall).
    destruct (spawned_car g d Hd) as (c & Hg & Hl & Ha & _ & Hy & _).
    exists (c :: new). rewrite Hc, Hg, <- app_assoc. simpl.
    repeat split; auto.
Qed.

(** C9, as the code has it.  A car created by the spawner has its lane in
    [0, LANE_COUNT), its art in [CAR_CHARS], and the position
    [-(8 * r)] for the [r] in [0, 1) that [random()] returned: at most
    zero, above -8, and negative unless [r] is zero.  The cars of the
    seeded state are six such cars. *)
Theorem spawner_output (g : Game) (d : Draw) (h : Z) (rnd : nat -> Draw) :
  valid_draw d -> (forall i, valid_draw (rnd i)) ->
  (exists c,
     cars (spawn_car g d) = cars g ++ [c] /\
     (0 <= lane c < LANE_COUNT)%Z /\ In (art c) CAR_CHARS /\
     y c == - (INITIAL_DISTANCE_MAX * rnd_dist d) /\
     y c <= 0 /\ - INITIAL_DISTANCE_MAX < y c /\
     (0 < rnd_dist d -> y c < 0)) /\
  List.length (cars (initialize h rnd)) = 6%nat /\
  Forall (fun c => (0 <= lane c < LANE_COUNT)%Z /\
                   In (art c) CAR_CHARS /\ y c <= 0)
         (cars (initialize h rnd)).
Proof.
  intros Hd Hrnd. split; [now apply spawned_car|].
  assert (Forall valid_draw (map rnd (seq 0 6))) as Hall.
  { apply Forall_forall. intros x Hx. apply in_map_iff in Hx.
    destruct Hx as [i [<- _]]. apply Hrnd. }
  destruct (seed_cars _ Hall (set_height init h)) as (new & Hc & Hlen & Hf).
  unfold initialize. rewrite Hc. simpl. split; assumption.
Qed.

Lemma valid_draw0 : valid_draw draw0.
Proof.
  unfold valid_draw, draw0, LANE_COUNT. simpl.
  repeat split; try lra; lia.
Defined.

Lemma spawner_output_witness :
  valid_draw draw0 /\
  (exists c,
     cars (spawn_car init draw0) = cars init ++ [c] /\
     (0 <= lane c < LANE_COUNT)%Z /\ In (art c) CAR_CHARS /\
     y c == - (INITIAL_DISTANCE_MAX * rnd_dist draw0) /\
     y c <= 0 /\ - INITIAL_DISTANCE_MAX < y c /\
     (0 < rnd_dist draw0 -> y c < 0)) /\
  List.length (cars (initialize 24 (fun _ => draw0))) = 6%nat /\
  Forall (fun c => (0 <= lane c < LANE_COUNT)%Z /\
                   In (art c) CAR_CHARS /\ y c <= 0)
         (cars (initialize 24 (fun _ => draw0))).
Proof.
  split; [exact valid_draw0|].
  apply (spawner_output init draw0 24 (fun _ => draw0)).
  - exact valid_draw0.
  - intro i. exact valid_draw0.
Defined.

(** ** Runs *)

Lemma reachable_seeded : reachable (initialize 24 (fun _ => draw0)).
Proof. apply reach_init. intro i. exact valid_draw0. Defined.

(** In exact arithmetic a frame with valid draws raises nothing on the
    states of a run. *)
Lemma frame_total (g : Game) (f : Frame) :
  reachable g -> valid_draw (fr_draw f) -> exists g', frame g f = inr g'.
Proof.
  intros Hr Hd. unfold frame. apply update_total; [assumption|].
  apply handle_input_inv. now apply reachable_inv.
Qed.

(** What [loop] returns is a state of a run. *)
Lemma run_reachable (fs : list Frame) :
  Forall (fun f => valid_draw (fr_draw f)) fs ->
  forall g g', reachable g -> run g fs = inr g' -> reachable g'.
Proof.
  induction 1 as [|f rest Hf _ IH]; intros g g' Hr H; simpl in H.
  - injection H as <-. exact Hr.
  - destruct (running g).
    + destruct (frame g f) as [e|g1] eqn:E; simpl in H; [discriminate|].
      apply (IH g1); [|exact H]. now apply (reach_frame g g1 f).
    + injection H as <-. exact Hr.
Qed.

Lemma loop_reachable (h : Z) (rnd : nat -> Draw) (fs : list Frame) (g : Game) :
  (forall i, valid_draw (rnd i)) ->
  Forall (fun f => valid_draw (fr_draw f)) fs ->
  loop h rnd fs = inr g -> reachable g.
Proof.
  intros Hrnd Hfs H. apply (run_reachable fs Hfs (initialize h rnd));
    [now apply reach_init|exact H].
Qed.


Lemma valid_draw_right : valid_draw draw_right.
Proof.
  unfold valid_draw, draw_right, LANE_COUNT. simpl.
  repeat split; try lra; lia.
Defined.

Lemma sample_frames_valid :
  Forall (fun f => valid_draw (fr_draw f)) sample_frames.
Proof.
  apply Forall_forall. intros f Hf. apply repeat_spec in Hf. subst f.
  exact valid_draw_right.
Defined.


(** C10.  In every state of a run the score equals the pass counter. *)
Theorem score_is_passed (g : Game) : reachable g -> score g = passed g.
Proof. intro Hr. exact (inv_score g (reachable_inv g Hr)). Qed.

Lemma score_is_passed_witness :
  exists g,
    loop 12 (fun _ => draw_right) sample_frames = inr g /\
    passed g = 10%Z /\ List.length (cars g) = 8%nat /\
    score g = passed g.
Proof.
  eexists. split; [vm_compute; reflexivity|].
  split; [reflexivity|]. split; [reflexivity|].
  apply score_is_passed.
  apply (loop_reachable 12 (fun _ => draw_right) sample_frames);
    [intro i; exact valid_draw_right|exact sample_frames_valid|].
  vm_compute. reflexivity.
Defined.

(** * Further properties of the simulation *)

(** ** Input *)

(** [clamp v a b] lies in [[a, b]] when [a <= b], is [v] itself when [v]
    already does, and is the nearer bound otherwise; with the bounds in
    the wrong order it is [a], whatever [v] is. *)
Lemma clamp_within (v a b : Z) :
  ((a <= b)%Z ->
   (a <= clamp v a b <= b)%Z /\
   ((a <= v <= b)%Z -> clamp v a b = v) /\
   ((v < a)%Z -> clamp v a b = a) /\
   ((b < v)%Z -> clamp v a b = b)) /\
  ((b < a)%Z -> clamp v a b = a).
Proof. unfold clamp. lia. Qed.

Lemma game_eta (g : Game) :
  mkGame (height g) (spawn_timer g) (cars g) (passed g) (global_speed g)
         (player_lane g) (running g) (score g) (next_id g) = g.
Proof. destruct g. reflexivity. Qed.

(** X1.  [handle_input] changes nothing but the player's lane and the
    running flag.  A left or right key moves a player who is on the road
    by one lane and not beyond the outer lanes; the other keys leave the
    lane alone.  Only the quit key clears [running], and no key sets
    it. *)
Theorem handle_input_effect (g : Game) (k : Key) :
  (0 <= player_lane g < LANE_COUNT)%Z ->
  (0 <= player_lane (handle_input g k) < LANE_COUNT)%Z /\
  (k = KeyLeft ->
   player_lane (handle_input g k) = Z.max 0 (player_lane g - 1)) /\
  (k = KeyRight ->
   player_lane (handle_input g k)
   = Z.min (LANE_COUNT - 1) (player_lane g + 1)) /\
  (k <> KeyLeft -> k <> KeyRight ->
   player_lane (handle_input g k) = player_lane g) /\
  (running (handle_input g k) = true <-> running g = true /\ k <> KeyQuit) /\
  set_running (set_player_lane (handle_input g k) (player_lane g))
              (running g) = g.
Proof.
  unfold LANE_COUNT. intro H.
  destruct k; simpl; unfold clamp, LANE_COUNT;
    (repeat split; try congruence; try lia; try tauto;
     try (intros [_ Hq]; congruence); try (intro; split; congruence);
     try (unfold set_running, set_player_lane; simpl; apply game_eta)).
Qed.

Lemma handle_input_effect_witness :
  (0 <= player_lane (one_car 13 2 5.0 0) < LANE_COUNT)%Z /\
  player_lane (handle_input (one_car 13 2 5.0 0) KeyLeft) = 0%Z /\
  player_lane (handle_input (one_car 13 2 5.0 0) KeyRight) = 1%Z /\
  (running (handle_input (one_car 13 2 5.0 0) KeyQuit) = true <->
   running (one_car 13 2 5.0 0) = true /\ KeyQuit <> KeyQuit).
Proof.
  assert (0 <= player_lane (one_car 13 2 5.0 0) < LANE_COUNT)%Z as H
    by (unfold LANE_COUNT; simpl; lia).
  split; [exact H|]. split; [reflexivity|]. split; [reflexivity|].
  exact (proj1 (proj2 (proj2 (proj2 (proj2
           (handle_input_effect (one_car 13 2 5.0 0) KeyQuit H)))))).
Defined.

(** ** Runs *)

Lemma spawn_car_arts (g : Game) (d : Draw) :
  valid_draw d ->
  Forall (fun c => In (art c) CAR_CHARS) (cars g) ->
  Forall (fun c => In (art c) CAR_CHARS) (cars (spawn_car g d)).
Proof.
  intros (_ & _ & _ & Ha & _) H. simpl. apply Forall_app. split; [exact H|].
  constructor; [|constructor]. exact (nth_In CAR_CHARS ""%string Ha).
Qed.

Lemma advanced_in (speeds : list Q) (dt : Q) (cs moved : list Car) :
  advanced speeds dt cs moved ->
  (forall c', In c' moved ->
              exists c, In c cs /\ advance speeds dt c = inr c') /\
  (forall c, In c cs ->
             exists c', In c' moved /\ advance speeds dt c = inr c').
Proof.
  induction 1 as [|c c' cs moved H _ [IH1 IH2]]; split; simpl.
  - intros x [].
  - intros x [].
  - intros x [<-|Hx]; [eauto|].
    destruct (IH1 x Hx) as [c0 [Hc0 Ha]]. eauto.
  - intros x [<-|Hx]; [eauto|].
    destruct (IH2 x Hx) as [c0 [Hc0 Ha]]. eauto.
Qed.

Lemma update_arts (g g' : Game) (dt : Q) (d : Draw) :
  valid_draw d -> update g dt d = inr g' ->
  Forall (fun c => In (art c) CAR_CHARS) (cars g) ->
  Forall (fun c => In (art c) CAR_CHARS) (cars g').
Proof.
  intros Hd H Ha. destruct (update_inr _ _ _ _ H) as [g1 [H1 H2]].
  assert (Forall (fun c => In (art c) CAR_CHARS) (cars g1)) as Ha1.
  { destruct (spawn_logic_cases _ _ _ _ H1) as [q [_ [[_ ->]|[_ ->]]]].
    - now apply spawn_car_arts.
    - exact Ha. }
  destruct (move_and_judge_raw _ _ _ H2) as (moved & Hm & Hc & _).
  assert (Forall (fun c => In (art c) CAR_CHARS) moved) as Hmoved.
  { apply Forall_forall. intros c' Hc'.
    destruct (proj1 (advanced_in _ _ _ _ Hm) c' Hc') as [c [Hin Hadv]].
    destruct (advance_fields _ _ _ _ Hadv) as (_ & _ & -> & _).
    rewrite Forall_forall in Ha1. now apply Ha1. }
  rewrite Hc. clear Hc Hm.
  generalize (filter (gone (player_row g1)) moved). intro rs.
  revert moved Hmoved. induction rs as [|r rs IH]; intros l Hl; simpl;
    [exact Hl|].
  apply IH. destruct (contains r l); [|exact Hl].
  clear IH. induction l as [|a t IHt]; simpl; [constructor|].
  inversion Hl; subst. destruct (same r a); [assumption|].
  constructor; auto.
Qed.

Lemma reachable_arts (g : Game) :
  reachable g -> Forall (fun c => In (art c) CAR_CHARS) (cars g).
Proof.
  induction 1 as [h rnd H|g g' f _ IH Hd Hf].
  - unfold initialize.
    assert (Forall valid_draw (map rnd (seq 0 6))) as Hall.
    { apply Forall_forall. intros x Hx. apply in_map_iff in Hx.
      destruct Hx as [i [<- _]]. apply H. }
    revert Hall. generalize (map rnd (seq 0 6)).
    assert (Forall (fun c => In (art c) CAR_CHARS)
                   (cars (set_height init h))) as H0 by constructor.
    revert H0. generalize (set_height init h).
    intros g0 H0 ds. revert g0 H0.
    induction ds as [|d t IHd]; intros g0 H0 Hall; simpl; [exact H0|].
    inversion Hall; subst. apply IHd; [|assumption].
    now apply spawn_car_arts.
  - unfold frame in Hf. apply (update_arts _ _ _ _ Hd Hf).
    destruct (fr_key f); exact IH.
Qed.

(** X2.  In every state of a run the player is in one of the five lanes,
    every car is in one of the five lanes and shows one of the three car
    arts, and the cars are distinct objects created by [spawn_car]. *)
Theorem reachable_well_formed (g : Game) :
  reachable g ->
  (0 <= player_lane g < LANE_COUNT)%Z /\
  Forall (fun c => (0 <= lane c < LANE_COUNT)%Z /\
                   In (art c) CAR_CHARS /\
                   (oid c < next_id g)%nat) (cars g) /\
  NoDup (map oid (cars g)).
Proof.
  intro Hr. destruct (reachable_inv _ Hr) as [[Hnd Hlt] Hl Hpl _ _ _].
  pose proof (reachable_arts _ Hr) as Ha.
  split; [exact Hpl|]. split; [|exact Hnd].
  unfold lanes_ok in Hl. rewrite Forall_forall in *.
  intros c Hc. auto.
Qed.

Lemma reachable_well_formed_witness :
  (0 <= player_lane (initialize 24 (fun _ => draw0)) < LANE_COUNT)%Z /\
  Forall (fun c => (0 <= lane c < LANE_COUNT)%Z /\
                   In (art c) CAR_CHARS /\
                   (oid c < next_id (initialize 24 (fun _ => draw0)))%nat)
         (cars (initialize 24 (fun _ => draw0))) /\
  NoDup (map oid (cars (initialize 24 (fun _ => draw0)))).
Proof.
  exact (reachable_well_formed (initialize 24 (fun _ => draw0))
                               reachable_seeded).
Defined.

(** X3.  What a frame of a run can raise, on binary64 numbers.  It raises
    neither [ZeroDivisionError] nor [IndexError]: the divisor of the spawn
    interval is not zero and every lane is an index of the speeds.  When it
    raises, a car, the one spawned in the frame included, has moved to a
    position that is infinite or not a number, and the exception is the
    [OverflowError] or [ValueError] of [int(car.y)].  When it returns, the
    state is again a state of the run. *)
Theorem frame_raises_on_overflow_only (g : B64.Game) (f : B64.Frame) :
  B64.reachable g -> B64.valid_draw (B64.fr_draw f) ->
  (forall g', B64.frame g f = inr g' -> B64.reachable g') /\
  (forall e, B64.frame g f = inl e ->
     exists g1 c c',
       B64.spawn_logic (B64.handle_input g (B64.fr_key f)) (B64.fr_dt f)
                       (B64.fr_draw f) = inr g1 /\
       In c (B64.cars g1) /\
       B64.advance (B64.lane_speeds (B64.global_speed g)) (B64.fr_dt f) c
       = inr c' /\
       ((e = OverflowError /\
         exists s, Prim2SF (B64.y c') = S754_infinity s) \/
        (e = ValueError /\ Prim2SF (B64.y c') = S754_nan))).
Proof.
  intros Hr Hd. split.
  - intros g' H. exact (B64.reach_frame g g' f Hr Hd H).
  - intros e H. unfold B64.frame, B64.update in H.
    pose proof (b64_handle_input_inv g (B64.fr_key f)
                  (b64_reachable_inv g Hr)) as Hi.
    assert (B64.global_speed (B64.handle_input g (B64.fr_key f))
            = B64.global_speed g) as Hgs by (destruct (B64.fr_key f); reflexivity).
    destruct (b64_spawn_logic_cases (B64.handle_input g (B64.fr_key f))
                (B64.fr_dt f) (B64.fr_draw f))
      as [[Hz _]|[_ [g1 [H1 Hf]]]].
    + exfalso. rewrite (B64.inv_speed _ Hi) in Hz.
      rewrite b64_ramped_divisor in Hz. discriminate.
    + rewrite H1 in H. simpl in H.
      pose proof (b64_spawn_logic_inv _ _ _ _ Hd Hi H1) as Hi1.
      destruct Hf as (_ & _ & _ & Hg & _).
      destruct (b64_move_and_judge_cases g1 (B64.fr_dt f))
        as [[e' [He Hm]]|[w [r [_ Hm]]]]; [|congruence].
      rewrite H in He. injection He as <-.
      apply b64_move_cars_inl in Hm.
      destruct Hm as (before & c & rest & Hc & _ & Hm).
      assert (In c (B64.cars g1)) as Hin
        by (rewrite Hc; apply in_or_app; right; now left).
      rewrite Hg, Hgs in Hm.
      destruct (b64_moved_row_inl _ _ _ _ Hm)
        as [(_ & _ & Hl)|(c' & Ha & _ & He)].
      * exfalso. apply Hl. unfold B64.lane_speeds. rewrite length_map.
        pose proof (B64.inv_lanes _ Hi1) as Hlanes.
        rewrite Forall_forall in Hlanes. specialize (Hlanes c Hin).
        unfold LANE_COUNT in Hlanes. simpl. lia.
      * exists g1, c, c'. auto.
Qed.

Lemma frame_raises_on_overflow_only_witness :
  exists g,
    B64.run (B64.initialize 12 (fun _ => B64.draw0)) B64.sample_frames
    = inr g /\
    B64.passed g = 10%Z /\
    (exists g', B64.frame g (B64.mkFrame KeyLeft 0.2 B64.draw0) = inr g' /\
                B64.reachable g') /\
    B64.frame g (B64.mkFrame NoKey 1.5e308 B64.draw0) = inl OverflowError /\
    exists g1 c c',
      B64.spawn_logic g 1.5e308 B64.draw0 = inr g1 /\
      In c (B64.cars g1) /\
      B64.advance (B64.lane_speeds (B64.global_speed g)) 1.5e308 c
      = inr c' /\
      ((OverflowError = OverflowError /\
        exists s, Prim2SF (B64.y c') = S754_infinity s) \/
       (OverflowError = ValueError /\ Prim2SF (B64.y c') = S754_nan)).
Proof.
  eexists. split; [vm_compute; reflexivity|].
  split; [reflexivity|].
  match goal with
  | |- (exists g', B64.frame ?g _ = _ /\ _) /\ _ =>
      assert (B64.reachable g) as Hr
  end.
  { apply (b64_run_reachable B64.sample_frames
             (B64.initialize 12 (fun _ => B64.draw0)));
      [apply B64.reach_init; intro i; exact b64_valid_draw0
      |exact b64_sample_frames_valid
      |vm_compute; reflexivity]. }
  split; [|split; [vm_compute; reflexivity|]].
  - eexists. split; [vm_compute; reflexivity|].
    apply (proj1 (frame_raises_on_overflow_only _
                    (B64.mkFrame KeyLeft 0.2 B64.draw0) Hr b64_valid_draw0)).
    vm_compute. reflexivity.
  - apply (proj2 (frame_raises_on_overflow_only _
                    (B64.mkFrame NoKey 1.5e308 B64.draw0) Hr b64_valid_draw0)
             OverflowError).
    vm_compute. reflexivity.
Defined.

(** ** Exceptions *)


(** ** What a tick does to the cars *)

Lemma map_filter_oid (P : Car -> bool) (K : nat -> bool) (l : list Car) :
  (forall c, In c l -> K (oid c) = P c) ->
  map oid (filter P l) = filter K (map oid l).
Proof.
  induction l as [|a t IH]; intro Hk; simpl; [reflexivity|].
  rewrite (Hk a (or_introl eq_refl)).
  destruct (P a); simpl; f_equal; apply IH; intros c Hc; apply Hk;
    now right.
Qed.

Lemma map_filter_keys (P : Car -> bool) (l : list Car) :
  NoDup (map oid l) ->
  map oid (filter P l)
  = filter (fun o => existsb (fun c => Nat.eqb (oid c) o && P c) l)
           (map oid l).
Proof.
  intro Hnd. apply map_filter_oid. intros c Hc. destruct (P c) eqn:E.
  - apply existsb_exists. exists c. rewrite Nat.eqb_refl, E. auto.
  - apply not_true_is_false. intro Hx.
    apply existsb_exists in Hx. destruct Hx as [x [Hin Hx]].
    apply andb_true_iff in Hx. destruct Hx as [Ho Hp].
    apply Nat.eqb_eq in Ho.
    rewrite (oid_inj l x c Hnd Hin Hc Ho) in Hp. congruence.
Qed.

(** X5.  A tick loses no car and reorders none.  With the car it may have
    spawned, every car either stays or is counted as passed: the cars
    left and the passes counted in the tick add up to the cars there
    were, and the cars left are those of before in their order. *)
Theorem cars_kept_or_counted (g g' : Game) (dt : Q) (d : Draw) :
  distinct g -> update g dt d = inr g' ->
  exists g1,
    spawn_logic g dt d = inr g1 /\
    (Z.of_nat (List.length (cars g')) + (passed g' - passed g)
     = Z.of_nat (List.length (cars g1)))%Z /\
    (List.length (cars g1)
     = List.length (cars g) + (if Qle_bool (spawn_timer g - dt) 0
                               then 1 else 0))%nat /\
    (score g' - score g = passed g' - passed g)%Z /\
    exists keep, map oid (cars g') = filter keep (map oid (cars g1)).
Proof.
  intros Hd H. destruct (update_inr _ _ _ _ H) as [g1 [H1 H2]].
  destruct (spawn_logic_distinct _ _ _ _ Hd H1)
    as ([Hnd _] & Hh & _ & Hp & Hs & _).
  destruct (move_and_judge_raw _ _ _ H2)
    as (moved & Ha & Hc & Hpa & Hsc & _).
  apply (move_and_judge_cars _ _ _ _ Hnd Ha) in Hc.
  pose proof (advanced_oid _ _ _ _ Ha) as Hoid.
  exists g1. split; [exact H1|]. repeat split.
  - rewrite Hpa, Hp, Hc.
    pose proof (filter_length (gone (player_row g1)) moved) as Hf.
    assert (List.length (cars g1) = List.length moved) as Hl
      by (unfold advanced in Ha; exact (Forall2_length Ha)).
    lia.
  - destruct (spawn_logic_cases _ _ _ _ H1) as [q [_ [[Hle ->]|[Hgt ->]]]].
    + assert (Qle_bool (spawn_timer g - dt) 0 = true) as ->
        by (now apply Qle_bool_iff).
      simpl. rewrite length_app. reflexivity.
    + assert (Qle_bool (spawn_timer g - dt) 0 = false) as ->
        by (apply not_true_is_false; intro Ht;
            apply Qle_bool_iff in Ht; contradiction).
      simpl. lia.
  - lia.
  - eexists. rewrite Hc, <- Hoid. apply map_filter_keys.
    now rewrite Hoid.
Qed.

Lemma cars_kept_or_counted_witness :
  distinct nine_passed /\
  exists g', update nine_passed 0.2 draw0 = inr g' /\
  exists g1,
    spawn_logic nine_passed 0.2 draw0 = inr g1 /\
    (Z.of_nat (List.length (cars g')) + (passed g' - passed nine_passed)
     = Z.of_nat (List.length (cars g1)))%Z /\
    (List.length (cars g1)
     = List.length (cars nine_passed)
       + (if Qle_bool (spawn_timer nine_passed - 0.2) 0 then 1 else 0))%nat /\
    (score g' - score nine_passed = passed g' - passed nine_passed)%Z /\
    exists keep, map oid (cars g') = filter keep (map oid (cars g1)).
Proof.
  assert (distinct nine_passed) as Hd.
  { split; simpl; [constructor; [intros []|constructor]|repeat constructor]. }
  split; [exact Hd|].
  eexists. split; [vm_compute; reflexivity|].
  apply (cars_kept_or_counted nine_passed _ 0.2 draw0 Hd).
  vm_compute. reflexivity.
Defined.

(** ** The two detection windows *)

Lemma floor_ge (z : Z) (x : Q) : (z <= Qfloor x)%Z <-> inject_Z z <= x.
Proof.
  split; intro H.
  - apply Qle_trans with (inject_Z (Qfloor x)); [|apply Qfloor_le].
    now rewrite <- Zle_Qle.
  - destruct (Z.le_gt_cases z (Qfloor x)) as [Hle|Hgt]; [exact Hle|].
    exfalso. pose proof (Qlt_floor x) as Hlt.
    assert (inject_Z (Qfloor x + 1) <= inject_Z z) as Hz
      by (rewrite <- Zle_Qle; lia).
    lra.
Qed.

Lemma floor_unique (z : Z) (x : Q) :
  inject_Z z <= x -> x < inject_Z z + 1 -> Qfloor x = z.
Proof.
  intros Hlo Hhi. apply floor_ge in Hlo.
  destruct (Z.le_gt_cases (Qfloor x) z) as [Hle|Hgt]; [lia|].
  exfalso. assert (z + 1 <= Qfloor x)%Z as H1 by lia.
  apply floor_ge in H1. rewrite inject_Z_plus in H1.
  change (inject_Z 1) with 1 in H1. lra.
Qed.

Lemma round_cases (x : Q) (f : Z) :
  inject_Z f <= x -> x < inject_Z f + 1 ->
  (x < inject_Z f + (1 # 2) -> Py.round x = f) /\
  (inject_Z f + (1 # 2) < x -> Py.round x = (f + 1)%Z) /\
  (x == inject_Z f + (1 # 2) ->
   Py.round x = if Z.even f then f else (f + 1)%Z).
Proof.
  intros Hlo Hhi. unfold Py.round. rewrite (floor_unique f x Hlo Hhi).
  destruct (Qcompare_spec (x - inject_Z f) (1 # 2)) as [E|E|E];
    repeat split; intro H; try reflexivity; exfalso; lra.
Qed.

Lemma inject_pred (z : Z) : inject_Z (z - 1) == inject_Z z - 1.
Proof.
  unfold Qeq, inject_Z, Qminus, Qplus, Qopp. simpl. lia.
Qed.

Lemma round_window (row : Z) (x : Q) :
  inject_Z row - (1 # 2) < x -> x < inject_Z row + (1 # 2) ->
  Py.round x = row.
Proof.
  intros Hlo Hhi. destruct (Qlt_le_dec x (inject_Z row)) as [Hx|Hx].
  - pose proof (inject_pred row) as Hp.
    destruct (round_cases x (row - 1)) as (_ & Hup & _); try lra.
    rewrite Hup by lra. lia.
  - destruct (round_cases x row) as (Hdn & _); try lra.
    apply Hdn. lra.
Qed.

Lemma round_tie_up (row : Z) (x : Q) :
  x == inject_Z row + (1 # 2) ->
  (Py.round x = row <-> Z.even row = true).
Proof.
  intro H. destruct (round_cases x row) as (_ & _ & Ht); try lra.
  rewrite (Ht H).
  destruct (Z.even row); split; intro; auto; try lia; try discriminate.
Qed.

Lemma round_tie_down (row : Z) (x : Q) :
  x == inject_Z row - (1 # 2) ->
  (Py.round x = row <-> Z.even row = true).
Proof.
  intro H. pose proof (inject_pred row) as Hp.
  destruct (round_cases x (row - 1)) as (_ & _ & Ht); try lra.
  rewrite Ht by lra.
  assert (Z.even row = negb (Z.even (row - 1))) as ->.
  { replace row with (Z.succ (row - 1)) at 1 by lia.
    now rewrite Z.even_succ, <- Z.negb_even. }
  destruct (Z.even (row - 1)); simpl; split; intro; auto; try lia;
    try discriminate.
Qed.

Lemma gone_iff (row : Z) (c : Car) :
  (0 <= row)%Z -> (gone row c = true <-> inject_Z row + 1 <= y c).
Proof.
  intro H. rewrite (gone_floor row c H), floor_ge, inject_Z_plus.
  change (inject_Z 1) with 1. tauto.
Qed.

(** X7.  The two tests of a tick as intervals of the position, for a
    player row that is not negative.  A car has passed exactly from
    [row + 1] on.  It is on the player's row, for the collision check,
    inside [(row - 1/2, row + 1/2)] and nowhere outside the closed
    interval; at either end it is on the row exactly when the row is even,
    [round] sending a tie to the even integer.  Between [row + 1/2] and
    [row + 1] a car is neither on the row nor passed. *)
Theorem detection_windows (row : Z) (c : Car) :
  (0 <= row)%Z ->
  (gone row c = true <-> inject_Z row + 1 <= y c) /\
  (inject_Z row - (1 # 2) < y c -> y c < inject_Z row + (1 # 2) ->
   Py.round (y c) = row) /\
  (Py.round (y c) = row ->
   inject_Z row - (1 # 2) <= y c /\ y c <= inject_Z row + (1 # 2)) /\
  (y c == inject_Z row - (1 # 2) \/ y c == inject_Z row + (1 # 2) ->
   (Py.round (y c) = row <-> Z.even row = true)) /\
  (inject_Z row + (1 # 2) < y c -> y c < inject_Z row + 1 ->
   Py.round (y c) <> row /\ gone row c = false).
Proof.
  intro Hrow.
  assert (Py.round (y c) = row ->
          inject_Z row - (1 # 2) <= y c /\ y c <= inject_Z row + (1 # 2))
    as Hclosed.
  { intro H. pose proof (round_nearest (y c)) as Hn. rewrite H in Hn.
    split; lra. }
  split; [now apply gone_iff|]. split; [apply round_window|].
  split; [exact Hclosed|]. split.
  - intros [H|H]; [now apply round_tie_down|now apply round_tie_up].
  - intros Hlo Hhi. split.
    + intro H. apply Hclosed in H. lra.
    + apply not_true_is_false. intro H. apply (gone_iff row c Hrow) in H.
      lra.
Qed.

Lemma detection_windows_witness :
  (0 <= 10)%Z /\
  (gone 10 (mkCar 0 3 10.6 "<#>") = true <-> inject_Z 10 + 1 <= 10.6) /\
  (Py.round 10.6 <> 10%Z /\ gone 10 (mkCar 0 3 10.6 "<#>") = false).
Proof.
  assert (0 <= 10)%Z as H by lia.
  split; [exact H|].
  pose proof (detection_windows 10 (mkCar 0 3 10.6 "<#>") H)
    as (Hg & _ & _ & _ & Hgap).
  split; [exact Hg|]. apply Hgap; reflexivity.
Defined.

(** X8.  A car that moves by less than one row in a tick cannot slip past
    the player: if it is in the player's lane, at most at [row - 1/2]
    before the tick, and the game still runs after the tick, then it is
    still among the cars and still at most at [row - 1/2]. *)
Theorem slow_car_cannot_slip (g g' : Game) (dt : Q) (d : Draw) (c c' : Car) :
  distinct g -> (0 <= player_row g)%Z ->
  update g dt d = inr g' ->
  In c (cars g) -> lane c = player_lane g ->
  advance (lane_speeds (global_speed g)) dt c = inr c' ->
  y c <= inject_Z (player_row g) - (1 # 2) -> y c' - y c < 1 ->
  running g' = true ->
  In c' (cars g') /\ y c' <= inject_Z (player_row g) - (1 # 2).
Proof.
  intros Hd Hrow H Hc Hlane Hadv Hy Hstep Hrun.
  destruct (update_inr _ _ _ _ H) as [g1 [H1 H2]].
  destruct (spawn_logic_distinct _ _ _ _ Hd H1)
    as ([Hnd _] & Hh & Hpl & _ & _ & Hg & _).
  destruct (move_and_judge_raw _ _ _ H2) as (moved & Ha & Hcars & _).
  apply (move_and_judge_cars _ _ _ _ Hnd Ha) in Hcars.
  assert (player_row g1 = player_row g) as Hr
    by (unfold player_row; now rewrite Hh).
  rewrite Hr in Hcars. rewrite Hg in Ha.
  assert (In c (cars g1)) as Hc1.
  { destruct (spawn_logic_cases _ _ _ _ H1) as [q [_ [[_ ->]|[_ ->]]]];
      simpl; [apply in_or_app; now left|exact Hc]. }
  destruct (proj2 (advanced_in _ _ _ _ Ha) c Hc1) as [c2 [Hin Hadv2]].
  rewrite Hadv in Hadv2. injection Hadv2 as <-.
  destruct (advance_fields _ _ _ _ Hadv) as (_ & Hl & _).
  assert (gone (player_row g) c' = false) as Hng.
  { apply not_true_is_false. intro Hgone.
    apply (gone_iff _ _ Hrow) in Hgone. lra. }
  assert (In c' (cars g')) as Hin'.
  { rewrite Hcars. apply filter_In. split; [exact Hin|]. now rewrite Hng. }
  split; [exact Hin'|].
  destruct (Qlt_le_dec (inject_Z (player_row g) - (1 # 2)) (y c'))
    as [Hgt|Hle]; [exfalso|exact Hle].
  pose proof (update_running _ _ _ _ H) as Hrun'.
  rewrite Hrun in Hrun'. symmetry in Hrun'.
  apply andb_true_iff in Hrun'. destruct Hrun' as [_ Hno].
  apply negb_true_iff in Hno.
  assert (existsb (hits (player_row g) (player_lane g)) (cars g') = true)
    as Hyes.
  { apply existsb_exists. exists c'. split; [exact Hin'|].
    apply hits_spec. split; [|congruence].
    apply round_window; lra. }
  congruence.
Qed.

Lemma slow_car_cannot_slip_witness :
  distinct (one_car 13 3 9.0 3) /\
  exists c' g',
    advance (lane_speeds 1.0) 0.2 (mkCar 0 3 9.0 "<#>") = inr c' /\
    update (one_car 13 3 9.0 3) 0.2 draw0 = inr g' /\
    running g' = true /\
    In c' (cars g') /\ y c' <= inject_Z 10 - (1 # 2).
Proof.
  split; [apply one_car_distinct|].
  eexists. eexists.
  split; [vm_compute; reflexivity|].
  split; [vm_compute; reflexivity|].
  split; [reflexivity|].
  apply (slow_car_cannot_slip (one_car 13 3 9.0 3) _ 0.2 draw0
                              (mkCar 0 3 9.0 "<#>")).
  - apply one_car_distinct.
  - vm_compute. discriminate.
  - vm_compute. reflexivity.
  - left. reflexivity.
  - reflexivity.
  - vm_compute. reflexivity.
  - vm_compute. discriminate.
  - reflexivity.
  - reflexivity.
Defined.

(** A faster car does slip: at global speed 4.0 a car of lane 2 moves by
    1.28 rows in a frame of 0.2 s, from 9.4, before the player's row 10,
    to 10.68, past it, and one frame later it is counted as passed; the
    game runs on. *)
Lemma fast_car_slips :
  exists g1 g2,
    update (mkGame 13 5.0 [mkCar 0 2 9.4 "<#>"] 0 4.0 2 true 0 1)
           0.2 draw0 = inr g1 /\
    running g1 = true /\ List.length (cars g1) = 1%nat /\
    update g1 0.2 draw0 = inr g2 /\
    running g2 = true /\ cars g2 = [] /\ passed g2 = 1%Z.
Proof.
  eexists. eexists.
  split; [vm_compute; reflexivity|].
  split; [reflexivity|]. split; [reflexivity|].
  split; [vm_compute; reflexivity|].
  repeat split.
Qed.

(** ** The speed over a run *)

(** X9.  In every state of a run the global speed is the running product
    of the ramp on binary64 numbers: [1.0] multiplied by [1.22] once for
    each ten cars passed, every product rounded.  It is never below [1.0];
    it is finite while fewer than 35700 cars have passed and infinite from
    then on. *)
Theorem speed_is_running_product (g : B64.Game) :
  B64.reachable g ->
  (0 <= B64.passed g)%Z /\
  B64.global_speed g = B64.ramped (Z.to_nat (B64.passed g / 10)) /\
  (1.0 <=? B64.global_speed g)%float = true /\
  ((B64.passed g < 35700)%Z ->
   (B64.global_speed g <? infinity)%float = true) /\
  ((35700 <= B64.passed g)%Z -> B64.global_speed g = infinity).
Proof.
  intro Hr. destruct (b64_reachable_inv g Hr) as [_ _ Hp Hs].
  split; [exact Hp|]. split; [exact Hs|]. rewrite Hs.
  split; [apply b64_ramped_lower|]. split; intro H.
  - apply b64_ramped_finite.
    assert (B64.passed g / 10 < 3570)%Z
      by (Z.to_euclidean_division_equations; lia).
    assert (0 <= B64.passed g / 10)%Z by (apply Z.div_pos; lia).
    change 3570%nat with (Z.to_nat 3570). lia.
  - apply b64_ramped_overflow.
    assert (3570 <= B64.passed g / 10)%Z
      by (Z.to_euclidean_division_equations; lia).
    change 3570%nat with (Z.to_nat 3570). lia.
Qed.

Lemma speed_is_running_product_witness :
  exists g,
    B64.run (B64.initialize 12 (fun _ => B64.draw0)) B64.sample_frames
    = inr g /\
    B64.passed g = 10%Z /\ B64.global_speed g = 1.22%float /\
    (0 <= B64.passed g)%Z /\
    B64.global_speed g = B64.ramped (Z.to_nat (B64.passed g / 10)) /\
    (1.0 <=? B64.global_speed g)%float = true /\
    ((B64.passed g < 35700)%Z ->
     (B64.global_speed g <? infinity)%float = true) /\
    ((35700 <= B64.passed g)%Z -> B64.global_speed g = infinity).
Proof.
  eexists. split; [vm_compute; reflexivity|].
  split; [reflexivity|]. split; [reflexivity|].
  apply speed_is_running_product.
  apply (b64_run_reachable B64.sample_frames
           (B64.initialize 12 (fun _ => B64.draw0)));
    [apply B64.reach_init; intro i; exact b64_valid_draw0
    |exact b64_sample_frames_valid
    |vm_compute; reflexivity].
Defined.

(** ** The loop *)

(** X11.  Running the loop over two batches of frames is running it over
    the first and then, from the state reached, over the second; a state
    that is no longer running passes through the second batch
    unchanged. *)
Theorem run_app (g : Game) (fs1 fs2 : list Frame) :
  run g (fs1 ++ fs2) = (g1 <- run g fs1 ;; run g1 fs2) /\
  (forall g1, run g fs1 = inr g1 -> running g1 = false ->
              run g (fs1 ++ fs2) = inr g1).
Proof.
  assert (forall fs g, run g (fs ++ fs2) = (g1 <- run g fs ;; run g1 fs2))
    as Happ.
  { induction fs as [|f rest IH]; intro g0; simpl; [reflexivity|].
    destruct (running g0) eqn:Er.
    - destruct (frame g0 f) as [e|g1]; simpl; [reflexivity|apply IH].
    - simpl. symmetry. now apply run_stopped. }
  split; [apply Happ|].
  intros g1 H Hr. rewrite Happ, H. simpl. now apply run_stopped.
Qed.

(** X12.  A frame that leaves the game not running is the last one: the
    loop returns the state of that frame, whatever frames would follow.
    The frame in which the player quits is such a frame, and its [update]
    has still been applied. *)
Theorem last_frame (g g1 : Game) (f : Frame) :
  running g = true -> frame g f = inr g1 ->
  (running g1 = false -> forall rest, run g (f :: rest) = inr g1) /\
  (fr_key f = KeyQuit ->
   running g1 = false /\
   update (set_running g false) (fr_dt f) (fr_draw f) = inr g1).
Proof.
  intros Hr Hf. split.
  - intros Hstop rest. simpl. rewrite Hr, Hf. simpl.
    now apply run_stopped.
  - intro Hk. unfold frame in Hf. rewrite Hk in Hf. simpl in Hf.
    split; [|exact Hf].
    rewrite (update_running _ _ _ _ Hf). reflexivity.
Qed.

Lemma last_frame_witness :
  running (one_car 13 2 10.9 2) = true /\
  exists g1,
    frame (one_car 13 2 10.9 2) (mkFrame KeyQuit 0.2 draw0) = inr g1 /\
    score g1 = 1%Z /\
    (running g1 = false ->
     forall rest,
       run (one_car 13 2 10.9 2) (mkFrame KeyQuit 0.2 draw0 :: rest)
       = inr g1) /\
    (KeyQuit = KeyQuit ->
     running g1 = false /\
     update (set_running (one_car 13 2 10.9 2) false) 0.2 draw0 = inr g1).
Proof.
  split; [reflexivity|].
  eexists. split; [vm_compute; reflexivity|]. split; [reflexivity|].
  apply (last_frame (one_car 13 2 10.9 2) _ (mkFrame KeyQuit 0.2 draw0)).
  - reflexivity.
  - vm_compute. reflexivity.
Defined.



(** * Rendering *)

(** ** Strings and lists *)

Section Strings.

Open Scope string_scope.

Lemma length_replicate (n : nat) (c : ascii) :
  String.length (PyStr.replicate n c) = n.
Proof. induction n as [|n IH]; simpl; [reflexivity|now rewrite IH]. Qed.

Lemma length_append (a b : string) :
  String.length (a ++ b) = (String.length a + String.length b)%nat.
Proof. induction a as [|c a IH]; simpl; [reflexivity|now rewrite IH]. Qed.

Lemma length_take (n : nat) (s : string) :
  String.length (PyStr.take n s) = Nat.min n (String.length s).
Proof.
  revert s. induction n as [|n IH]; intros [|c s]; simpl; try reflexivity.
  now rewrite IH.
Qed.

Lemma length_drop (n : nat) (s : string) :
  String.length (PyStr.drop n s) = (String.length s - n)%nat.
Proof.
  revert s. induction n as [|n IH]; intros [|c s]; simpl; try reflexivity.
  apply IH.
Qed.

Lemma drop_append (a b : string) :
  PyStr.drop (String.length a) (a ++ b) = b.
Proof. induction a as [|c a IH]; simpl; [now destruct b|exact IH]. Qed.

Lemma take_append (a b : string) :
  PyStr.take (String.length a) (a ++ b) = a.
Proof. induction a as [|c a IH]; simpl; [reflexivity|now rewrite IH]. Qed.

Lemma bound_inside (s : string) (k : Z) :
  (0 <= k <= PyStr.len s)%Z -> PyStr.bound s k = Z.to_nat k.
Proof.
  intro H. unfold PyStr.bound.
  destruct (Z.ltb_spec k 0); [lia|]. f_equal. lia.
Qed.

Lemma bound_le (s : string) (k : Z) :
  (PyStr.bound s k <= String.length s)%nat.
Proof.
  unfold PyStr.bound, PyStr.len. destruct (Z.ltb_spec k 0); lia.
Qed.

Lemma len_spaces (n : Z) : (0 <= n)%Z -> PyStr.len (PyStr.spaces n) = n.
Proof.
  intro H. unfold PyStr.len, PyStr.spaces. rewrite length_replicate. lia.
Qed.

(** Painting an art that fits keeps the width of the line and puts the
    art at the start column, which is the clamped [x - len(s) // 2]. *)
Lemma paint_spec (width x : Z) (s row : string) :
  PyStr.len row = width -> (PyStr.len s <= width)%Z ->
  PyStr.len (paint width x s row) = width /\
  PyStr.take (String.length s)
    (PyStr.drop
       (Z.to_nat (clamp (x - PyStr.len s / 2) 0 (width - PyStr.len s)))
       (paint width x s row)) = s.
Proof.
  intros Hrow Hs. unfold paint.
  set (startx := clamp (x - PyStr.len s / 2) 0 (width - PyStr.len s)).
  assert (0 <= startx <= width - PyStr.len s)%Z as Hx
    by (unfold startx, clamp; lia).
  assert (0 <= PyStr.len s)%Z as Hs0 by (unfold PyStr.len; lia).
  unfold PyStr.upto, PyStr.from.
  rewrite !bound_inside by lia.
  assert (String.length (PyStr.take (Z.to_nat startx) row)
          = Z.to_nat startx) as Htake
    by (rewrite length_take; unfold PyStr.len in *; lia).
  split.
  - unfold PyStr.len in *.
    rewrite !length_append, Htake, length_drop. lia.
  - rewrite <- Htake at 1. rewrite drop_append. apply take_append.
Qed.

Lemma ljust_length (s : string) (n : Z) :
  (0 <= n)%Z ->
  PyStr.len (PyStr.ljust (PyStr.upto s n) n) = n.
Proof.
  intro H. unfold PyStr.ljust, PyStr.upto, PyStr.len, PyStr.spaces.
  rewrite length_append, length_replicate, !length_take.
  unfold PyStr.bound, PyStr.len. destruct (Z.ltb_spec n 0); lia.
Qed.

End Strings.

Section Lists.

Context {A : Type}.

Lemma getitem_nth (l : list A) (i : Z) :
  (0 <= i < Z.of_nat (List.length l))%Z ->
  exists a, Py.getitem l i = inr a /\ nth_error l (Z.to_nat i) = Some a.
Proof.
  intro H. unfold Py.getitem.
  destruct (Z.ltb_spec i 0); [lia|].
  destruct (Z.ltb_spec i 0); [lia|].
  destruct (Z.leb_spec (Z.of_nat (List.length l)) i); [lia|]. simpl.
  destruct (nth_error l (Z.to_nat i)) as [a|] eqn:E.
  - exists a. split; reflexivity.
  - apply nth_error_None in E. lia.
Qed.

Lemma getitem_total (l : list A) (i : Z) :
  (- Z.of_nat (List.length l) <= i < Z.of_nat (List.length l))%Z ->
  exists a, Py.getitem l i = inr a.
Proof.
  intro H. destruct (Py.getitem l i) as [e|a] eqn:E; [|eauto].
  destruct (getitem_inl _ _ _ E) as [_ Hn]. contradiction.
Qed.

Lemma setitem_spec (l : list A) (i : Z) (v : A) :
  (0 <= i < Z.of_nat (List.length l))%Z ->
  exists l', PyStr.setitem l i v = inr l' /\
    List.length l' = List.length l /\
    nth_error l' (Z.to_nat i) = Some v /\
    forall j, j <> Z.to_nat i -> nth_error l' j = nth_error l j.
Proof.
  intro H. unfold PyStr.setitem.
  destruct (Z.ltb_spec i 0); [lia|].
  destruct (Z.ltb_spec i 0); [lia|].
  destruct (Z.leb_spec (Z.of_nat (List.length l)) i); [lia|]. cbn [orb].
  set (n := Z.to_nat i). assert (n < List.length l)%nat as Hn by lia.
  eexists. split; [reflexivity|].
  assert (List.length (firstn n l) = n) as Hf
    by (rewrite length_firstn; lia).
  repeat split.
  - rewrite length_app. cbn [List.length]. rewrite Hf, length_skipn. lia.
  - rewrite nth_error_app2 by lia. rewrite Hf, Nat.sub_diag. reflexivity.
  - intros j Hj. destruct (Nat.lt_ge_cases j n) as [Hlt|Hge].
    + rewrite nth_error_app1 by lia. rewrite nth_error_firstn.
      destruct (Nat.ltb_spec j n); [reflexivity|lia].
    + rewrite nth_error_app2 by lia. rewrite Hf.
      destruct (j - n)%nat as [|k] eqn:Ek; [lia|]. cbn [nth_error].
      rewrite nth_error_skipn. f_equal. lia.
Qed.

End Lists.

(** ** The lane centres *)

Lemma lane_x_shape (width : Z) :
  exists start gap,
    lane_x_positions width
    = [start; start + gap; start + 2 * gap; start + 3 * gap;
       start + 4 * gap]%Z /\
    gap = Z.max 6 (Z.max (width - 10) 20 / 10) /\
    start = ((width - 4 * gap) / 2)%Z.
Proof.
  exists ((width - Z.max 6 (Z.max (width - 10) 20 / 10) * 4) / 2)%Z.
  exists (Z.max 6 (Z.max (width - 10) 20 / 10)).
  split; [|split; [reflexivity|f_equal; lia]].
  unfold lane_x_positions, range, LANE_COUNT. simpl map.
  change (5 * 2)%Z with 10%Z. change (5 - 1)%Z with 4%Z.
  repeat (f_equal; try lia).
Qed.

Lemma lane_x_room (width : Z) :
  (28 <= width)%Z ->
  Forall (fun x => 1 <= x /\ x + 2 <= width)%Z (lane_x_positions width).
Proof.
  intro H. destruct (lane_x_shape width) as (start & gap & -> & Hg & Hs).
  assert (6 <= gap)%Z as Hg6 by lia.
  assert (1 <= start /\ start + 4 * gap + 2 <= width)%Z as [Hlo Hhi].
  { subst start gap. Z.to_euclidean_division_equations. lia. }
  repeat constructor; lia.
Qed.

(** X14.  The five lane centres are evenly spaced, [gap] columns apart
    with [gap] at least 6 and a tenth of the usable width beyond that, and
    centred on the screen to within one column.  On a screen of 28
    columns or more, so on every screen [draw] paints on, each centre has
    a column to its left and to its right on the screen: an art of three
    characters fits around it. *)
Theorem lane_centres (width : Z) :
  exists start gap,
    lane_x_positions width
    = [start; start + gap; start + 2 * gap; start + 3 * gap;
       start + 4 * gap]%Z /\
    gap = Z.max 6 (Z.max (width - 10) 20 / 10) /\ (6 <= gap)%Z /\
    (width - 1 <= start + (start + 4 * gap) <= width)%Z /\
    ((28 <= width)%Z ->
     Forall (fun x => 1 <= x /\ x + 2 <= width)%Z
            (lane_x_positions width)).
Proof.
  destruct (lane_x_shape width) as (start & gap & Hxs & Hg & Hs).
  exists start, gap. split; [exact Hxs|]. split; [exact Hg|].
  split; [lia|]. split; [|apply lane_x_room].
  subst start. Z.to_euclidean_division_equations. lia.
Qed.

(** ** The frame *)

Lemma draw_cars_ok (xs : list Z) (width height : Z) (cs : list Car) :
  List.length xs = 5%nat ->
  Forall (fun c => (- LANE_COUNT <= lane c < LANE_COUNT)%Z /\
                   (PyStr.len (art c) <= width)%Z) cs ->
  forall b,
    Z.of_nat (List.length b) = height ->
    Forall (fun r => PyStr.len r = width) b ->
    exists b',
      draw_cars xs width height b cs = inr b' /\
      List.length b' = List.length b /\
      Forall (fun r => PyStr.len r = width) b' /\
      forall i, (forall c, In c cs -> Py.round (y c) <> Z.of_nat i) ->
                nth_error b' i = nth_error b i.
Proof.
  intros Hxs Hcs. induction Hcs as [|c rest [Hl Ha] _ IH];
    intros b Hlen Hrows; simpl.
  - exists b. repeat split; auto.
  - destruct ((0 <=? Py.round (y c)) && (Py.round (y c) <? height - 1))%Z
      eqn:Evis.
    + apply andb_true_iff in Evis. destruct Evis as [E0 E1].
      apply Z.leb_le in E0. apply Z.ltb_lt in E1.
      destruct (getitem_total xs (lane c)) as [x ->];
        [rewrite Hxs; unfold LANE_COUNT in Hl; lia|]. simpl.
      destruct (getitem_nth b (Py.round (y c))) as [row [-> Hrow]];
        [lia|]. simpl.
      destruct (setitem_spec b (Py.round (y c)) (paint width x (art c) row))
        as (b1 & -> & Hlen1 & Hset & Hother); [lia|]. simpl.
      assert (PyStr.len row = width) as Hrowlen.
      { rewrite Forall_forall in Hrows. apply Hrows.
        exact (nth_error_In _ _ Hrow). }
      assert (Forall (fun r => PyStr.len r = width) b1) as Hrows1.
      { apply Forall_forall. intros r Hr.
        destruct (In_nth_error _ _ Hr) as [n Hn].
        destruct (Nat.eq_dec n (Z.to_nat (Py.round (y c)))) as [->|Hne].
        - rewrite Hset in Hn. injection Hn as <-.
          exact (proj1 (paint_spec width x (art c) row Hrowlen Ha)).
        - rewrite (Hother n Hne) in Hn.
          rewrite Forall_forall in Hrows. apply Hrows.
          exact (nth_error_In _ _ Hn). }
      destruct (IH b1) as (b' & Hd & Hlen' & Hrows' & Hkeep);
        [lia|exact Hrows1|].
      exists b'. split; [exact Hd|]. split; [lia|].
      split; [exact Hrows'|].
      intros i Hi. rewrite Hkeep by (intros c0 Hc0; apply Hi; now right).
      apply Hother. intro Heq. apply (Hi c (or_introl eq_refl)). lia.
    + destruct (IH b Hlen Hrows) as (b' & Hd & Hlen' & Hrows' & Hkeep).
      exists b'. split; [exact Hd|]. split; [exact Hlen'|].
      split; [exact Hrows'|].
      intros i Hi. apply Hkeep. intros c0 Hc0. apply Hi. now right.
Qed.

Lemma xs_length (width : Z) : List.length (lane_x_positions width) = 5%nat.
Proof. reflexivity. Qed.

Lemma blank_buffer (width : Z) (n : nat) :
  (0 <= width)%Z ->
  Forall (fun r => PyStr.len r = width) (repeat (PyStr.spaces width) n) /\
  forall i, (i < n)%nat ->
            nth_error (repeat (PyStr.spaces width) n) i
            = Some (PyStr.spaces width).
Proof.
  intro H. split.
  - apply Forall_forall. intros r Hr. apply repeat_spec in Hr. subst r.
    now apply len_spaces.
  - intros i Hi. apply nth_error_repeat. exact Hi.
Qed.

(** What [draw] returns on a terminal large enough: the buffer [b1] left
    by the cars, then the player's art on the player's row, then the HUD
    on the last line. *)
Lemma draw_painted (g : Game) (width : Z) (speed : string) :
  (MIN_WIDTH <= width)%Z -> (MIN_HEIGHT <= height g)%Z ->
  Forall (fun c => (- LANE_COUNT <= lane c < LANE_COUNT)%Z /\
                   (PyStr.len (art c) <= width)%Z) (cars g) ->
  (- LANE_COUNT <= player_lane g < LANE_COUNT)%Z ->
  exists b1 px row1 buffer,
    draw g width speed = inr (Painted buffer) /\
    Z.of_nat (List.length b1) = height g /\
    Forall (fun r => PyStr.len r = width) b1 /\
    (forall i, (i < Z.to_nat (height g))%nat ->
       (forall c, In c (cars g) -> Py.round (y c) <> Z.of_nat i) ->
       nth_error b1 i = Some (PyStr.spaces width)) /\
    Py.getitem (lane_x_positions width) (player_lane g) = inr px /\
    nth_error b1 (Z.to_nat (player_row g)) = Some row1 /\
    List.length buffer = List.length b1 /\
    nth_error buffer (Z.to_nat (player_row g))
    = Some (paint width px PLAYER_CHAR row1) /\
    nth_error buffer (Z.to_nat (height g - 1))
    = Some (PyStr.ljust (PyStr.upto (hud_text g speed) (width - 1))
                        (width - 1)) /\
    forall j, j <> Z.to_nat (player_row g) ->
              j <> Z.to_nat (height g - 1) ->
              nth_error buffer j = nth_error b1 j.
Proof.
  unfold MIN_WIDTH, MIN_HEIGHT. intros Hw Hh Hcs Hpl.
  destruct (blank_buffer width (Z.to_nat (height g))) as [Hblank Hnth];
    [lia|].
  destruct (draw_cars_ok (lane_x_positions width) width (height g) (cars g)
              (xs_length width) Hcs
              (repeat (PyStr.spaces width) (Z.to_nat (height g))))
    as (b1 & Hd & Hlen & Hrows & Hkeep);
    [rewrite repeat_length; lia|exact Hblank|].
  rewrite repeat_length in Hlen.
  destruct (getitem_total (lane_x_positions width) (player_lane g))
    as [px Hpx]; [rewrite xs_length; unfold LANE_COUNT in Hpl; lia|].
  unfold player_row.
  destruct (getitem_nth b1 (height g - 3)) as [row1 [Hg1 Hrow1]]; [lia|].
  destruct (setitem_spec b1 (height g - 3) (paint width px PLAYER_CHAR row1))
    as (b2 & Hs2 & Hlen2 & Hset2 & Hother2); [lia|].
  destruct (setitem_spec b2 (height g - 1)
              (PyStr.ljust (PyStr.upto (hud_text g speed) (width - 1))
                           (width - 1)))
    as (b3 & Hs3 & Hlen3 & Hset3 & Hother3); [lia|].
  exists b1, px, row1, b3. split.
  - unfold draw, MIN_WIDTH, MIN_HEIGHT.
    destruct (Z.ltb_spec width 40); [lia|].
    destruct (Z.ltb_spec (height g) 12); [lia|]. cbn [orb].
    rewrite Hd. cbn [bind]. rewrite Hpx. cbn [bind].
    unfold player_row. rewrite Hg1. cbn [bind]. rewrite Hs2. cbn [bind].
    rewrite Hs3. reflexivity.
  - split; [lia|]. split; [exact Hrows|]. split.
    { intros i Hi Hno. rewrite (Hkeep i Hno). now apply Hnth. }
    split; [exact Hpx|]. split; [exact Hrow1|]. split; [lia|]. split.
    { rewrite Hother3 by lia. exact Hset2. }
    split; [exact Hset3|].
    intros j Hj1 Hj2. rewrite Hother3 by exact Hj2. now apply Hother2.
Qed.

Lemma getitem_in {A : Type} (l : list A) (i : Z) (a : A) :
  Py.getitem l i = inr a -> In a l.
Proof.
  unfold Py.getitem, ret, raise.
  destruct ((_ <? 0)%Z || (_ <=? _)%Z); [discriminate|].
  match goal with
  | |- context [nth_error l ?n] => destruct (nth_error l n) eqn:E
  end; [|discriminate].
  intro H. injection H as <-. exact (nth_error_In _ _ E).
Qed.

Lemma mid_game_drawable :
  (MIN_WIDTH <= 40)%Z /\ (MIN_HEIGHT <= height mid_game)%Z /\
  Forall (fun c => (- LANE_COUNT <= lane c < LANE_COUNT)%Z /\
                   (PyStr.len (art c) <= 40)%Z) (cars mid_game) /\
  (- LANE_COUNT <= player_lane mid_game < LANE_COUNT)%Z.
Proof.
  unfold MIN_WIDTH, MIN_HEIGHT, LANE_COUNT, mid_game.
  cbn [cars height player_lane].
  split; [lia|]. split; [lia|]. split; [|lia].
  repeat (constructor;
          [cbn [lane art]; split; [lia|vm_compute; discriminate]|]).
  constructor.
Defined.

(** X15.  On a terminal of at least 40 columns and 12 rows, with every
    lane an index of the lane list and no art wider than the terminal,
    [draw] raises nothing and paints a frame that fits the terminal: as
    many lines as the terminal has rows, each as wide as the terminal,
    but for the HUD on the last line, which is one column short. *)
Theorem frame_fits_terminal (g : Game) (width : Z) (speed : string) :
  (MIN_WIDTH <= width)%Z -> (MIN_HEIGHT <= height g)%Z ->
  Forall (fun c => (- LANE_COUNT <= lane c < LANE_COUNT)%Z /\
                   (PyStr.len (art c) <= width)%Z) (cars g) ->
  (- LANE_COUNT <= player_lane g < LANE_COUNT)%Z ->
  exists buffer,
    draw g width speed = inr (Painted buffer) /\
    Z.of_nat (List.length buffer) = height g /\
    forall i row, nth_error buffer i = Some row ->
      PyStr.len row
      = if (Z.of_nat i =? height g - 1)%Z then (width - 1)%Z else width.
Proof.
  intros Hw Hh Hcs Hpl.
  destruct (draw_painted g width speed Hw Hh Hcs Hpl)
    as (b1 & px & row1 & buffer & Hd & Hlen1 & Hrows & _ & _ & Hrow1
        & Hlen & Hpy & Hhud & Hother).
  unfold MIN_WIDTH, MIN_HEIGHT, player_row in *.
  exists buffer. split; [exact Hd|]. split; [lia|].
  intros i row Hi. destruct (Z.eqb_spec (Z.of_nat i) (height g - 1)) as [E|E].
  - replace i with (Z.to_nat (height g - 1)) in Hi by lia.
    rewrite Hhud in Hi. injection Hi as <-. apply ljust_length. lia.
  - destruct (Nat.eq_dec i (Z.to_nat (height g - 3))) as [->|Hne].
    + rewrite Hpy in Hi. injection Hi as <-.
      apply paint_spec; [|unfold PyStr.len; simpl; lia].
      rewrite Forall_forall in Hrows. apply Hrows.
      exact (nth_error_In _ _ Hrow1).
    + rewrite Hother in Hi by lia.
      rewrite Forall_forall in Hrows. apply Hrows.
      exact (nth_error_In _ _ Hi).
Qed.

Lemma frame_fits_terminal_witness :
  exists buffer,
    draw mid_game 40 "1.00" = inr (Painted buffer) /\
    Z.of_nat (List.length buffer) = height mid_game /\
    forall i row, nth_error buffer i = Some row ->
      PyStr.len row
      = if (Z.of_nat i =? height mid_game - 1)%Z then (40 - 1)%Z else 40%Z.
Proof.
  destruct mid_game_drawable as (Hw & Hh & Hcs & Hpl).
  exact (frame_fits_terminal mid_game 40 "1.00" Hw Hh Hcs Hpl).
Defined.

(** X16.  Under the same conditions the player is always shown: the line
    of the player's row reads [PLAYER_CHAR] in the three columns around
    the centre of the player's lane, whatever cars were painted on that
    line before. *)
Theorem player_is_shown (g : Game) (width : Z) (speed : string) :
  (MIN_WIDTH <= width)%Z -> (MIN_HEIGHT <= height g)%Z ->
  Forall (fun c => (- LANE_COUNT <= lane c < LANE_COUNT)%Z /\
                   (PyStr.len (art c) <= width)%Z) (cars g) ->
  (- LANE_COUNT <= player_lane g < LANE_COUNT)%Z ->
  exists buffer row px,
    draw g width speed = inr (Painted buffer) /\
    Py.getitem (lane_x_positions width) (player_lane g) = inr px /\
    nth_error buffer (Z.to_nat (player_row g)) = Some row /\
    PyStr.take 3 (PyStr.drop (Z.to_nat (px - 1)) row) = PLAYER_CHAR.
Proof.
  intros Hw Hh Hcs Hpl.
  destruct (draw_painted g width speed Hw Hh Hcs Hpl)
    as (b1 & px & row1 & buffer & Hd & _ & Hrows & _ & Hpx & Hrow1
        & _ & Hpy & _).
  exists buffer, (paint width px PLAYER_CHAR row1), px.
  split; [exact Hd|]. split; [exact Hpx|]. split; [exact Hpy|].
  assert (PyStr.len row1 = width) as Hlen
    by (rewrite Forall_forall in Hrows; apply Hrows;
        exact (nth_error_In _ _ Hrow1)).
  assert (1 <= px /\ px + 2 <= width)%Z as [Hlo Hhi].
  { pose proof (lane_x_room width) as Hroom. unfold MIN_WIDTH in Hw.
    rewrite Forall_forall in Hroom.
    apply Hroom; [lia|exact (getitem_in _ _ _ Hpx)]. }
  destruct (paint_spec width px PLAYER_CHAR row1 Hlen) as [_ Hshow];
    [unfold PyStr.len; simpl; unfold MIN_WIDTH in Hw; lia|].
  replace (clamp (px - PyStr.len PLAYER_CHAR / 2) 0
                 (width - PyStr.len PLAYER_CHAR)) with (px - 1)%Z in Hshow.
  - exact Hshow.
  - change (PyStr.len PLAYER_CHAR) with 3%Z. change (3 / 2)%Z with 1%Z.
    unfold clamp. lia.
Qed.

Lemma player_is_shown_witness :
  exists buffer row px,
    draw mid_game 40 "1.00" = inr (Painted buffer) /\
    Py.getitem (lane_x_positions 40) (player_lane mid_game) = inr px /\
    nth_error buffer (Z.to_nat (player_row mid_game)) = Some row /\
    PyStr.take 3 (PyStr.drop (Z.to_nat (px - 1)) row) = PLAYER_CHAR.
Proof.
  destruct mid_game_drawable as (Hw & Hh & Hcs & Hpl).
  exact (player_is_shown mid_game 40 "1.00" Hw Hh Hcs Hpl).
Defined.

(** X17.  Under the same conditions a car is painted only on the line its
    position rounds to: every line above the HUD other than the player's
    on which no car's rounded position falls is blank.  Cars that have
    not yet reached the top line, and cars on the HUD line or below it,
    leave no trace. *)
Theorem lines_without_cars_are_blank (g : Game) (width : Z)
    (speed : string) :
  (MIN_WIDTH <= width)%Z -> (MIN_HEIGHT <= height g)%Z ->
  Forall (fun c => (- LANE_COUNT <= lane c < LANE_COUNT)%Z /\
                   (PyStr.len (art c) <= width)%Z) (cars g) ->
  (- LANE_COUNT <= player_lane g < LANE_COUNT)%Z ->
  exists buffer,
    draw g width speed = inr (Painted buffer) /\
    forall i, (0 <= i < height g - 1)%Z -> i <> player_row g ->
      (forall c, In c (cars g) -> Py.round (y c) <> i) ->
      nth_error buffer (Z.to_nat i) = Some (PyStr.spaces width).
Proof.
  intros Hw Hh Hcs Hpl.
  destruct (draw_painted g width speed Hw Hh Hcs Hpl)
    as (b1 & px & row1 & buffer & Hd & _ & _ & Hblank & _ & _
        & _ & _ & _ & Hother).
  exists buffer. split; [exact Hd|].
  intros i Hi Hnp Hno. unfold player_row, MIN_HEIGHT in *.
  rewrite Hother by lia. apply Hblank; [lia|].
  intros c Hc. rewrite Z2Nat.id by lia. now apply Hno.
Qed.

Lemma lines_without_cars_are_blank_witness :
  exists buffer,
    draw mid_game 40 "1.00" = inr (Painted buffer) /\
    forall i, (0 <= i < height mid_game - 1)%Z -> i <> player_row mid_game ->
      (forall c, In c (cars mid_game) -> Py.round (y c) <> i) ->
      nth_error buffer (Z.to_nat i) = Some (PyStr.spaces 40).
Proof.
  destruct mid_game_drawable as (Hw & Hh & Hcs & Hpl).
  exact (lines_without_cars_are_blank mid_game 40 "1.00" Hw Hh Hcs Hpl).
Defined.

(** X18.  Drawing a state of a run raises nothing, whatever the size of
    the terminal: [draw] prints the message of the terminal too small
    when the terminal has fewer than 40 columns or 12 rows, and paints the
    frame otherwise. *)
Theorem draw_never_raises (g : Game) (width : Z) (speed : string) :
  reachable g ->
  exists shown,
    draw g width speed = inr shown /\
    ((width < MIN_WIDTH \/ height g < MIN_HEIGHT)%Z ->
     exists msg, shown = TooSmall msg) /\
    ((MIN_WIDTH <= width /\ MIN_HEIGHT <= height g)%Z ->
     exists buffer, shown = Painted buffer).
Proof.
  intro Hr.
  destruct (Z.ltb_spec width MIN_WIDTH) as [Hw|Hw].
  - eexists. split; [|split].
    + unfold draw. destruct (Z.ltb_spec width MIN_WIDTH); [|lia].
      reflexivity.
    + intros _. eexists. reflexivity.
    + intros [Hw' _]. lia.
  - destruct (Z.ltb_spec (height g) MIN_HEIGHT) as [Hh|Hh].
    + eexists. split; [|split].
      * unfold draw. destruct (Z.ltb_spec width MIN_WIDTH); [lia|].
        destruct (Z.ltb_spec (height g) MIN_HEIGHT); [|lia]. reflexivity.
      * intros _. eexists. reflexivity.
      * intros [_ Hh']. lia.
    + destruct (reachable_inv _ Hr) as [_ Hl Hpl _ _ _].
      pose proof (reachable_arts _ Hr) as Ha.
      assert (Forall (fun c => (- LANE_COUNT <= lane c < LANE_COUNT)%Z /\
                               (PyStr.len (art c) <= width)%Z) (cars g))
        as Hcs.
      { unfold lanes_ok in Hl. rewrite Forall_forall in *.
        intros c Hc. split; [specialize (Hl c Hc); lia|].
        specialize (Ha c Hc). unfold MIN_WIDTH in Hw.
        destruct Ha as [<-|[<-|[<-|[]]]]; unfold PyStr.len; simpl; lia. }
      destruct (draw_painted g width speed Hw Hh Hcs)
        as (b1 & px & row1 & buffer & Hd & _); [lia|].
      exists (Painted buffer). split; [exact Hd|]. split.
      * intros [H|H]; lia.
      * intros _. eexists. reflexivity.
Qed.

Lemma draw_never_raises_witness :
  exists shown,
    draw (initialize 24 (fun _ => draw0)) 80 "1.00" = inr shown /\
    ((80 < MIN_WIDTH \/ height (initialize 24 (fun _ => draw0)) < MIN_HEIGHT)%Z
     -> exists msg, shown = TooSmall msg) /\
    ((MIN_WIDTH <= 80
      /\ MIN_HEIGHT <= height (initialize 24 (fun _ => draw0)))%Z ->
     exists buffer, shown = Painted buffer).
Proof.
  exact (draw_never_raises (initialize 24 (fun _ => draw0)) 80 "1.00"
                           reachable_seeded).
Defined.
